(** * EventLens: face-matching orchestration, verified against its source

    A shallow embedding of the three pieces of control flow of the
    application:

    - [services/geminiService.ts]: the oracle adapter [findFaceMatches];
    - [views/ClientPortal.tsx]: the guided capture sequence
      ([startCamera], [stopCamera], [captureFrame], [runRecordingSequence],
      [finishRecording], the unmount effect) and the chunked scan
      ([startScan], [handleDeselect]);
    - [views/PhotographerDashboard.tsx]: the background indexing effect
      ([processNextBatch], [processFiles], [clearGallery]);
    - [App.tsx]: the mode, by which the dashboard is unmounted and mounted
      again over the same photos.

    JavaScript code that may throw is written in a state-and-exception
    monad; React state is a record, a setter is a field update, and a
    closure created in one render reads the state of that render, which the
    model passes to it as an explicit argument. *)

From stdpp Require Import base numbers option list strings.
From Stdlib Require Import Ascii ZArith QArith Qminmax Qround Qpower Sorted Lia Lqa.

Local Open Scope string_scope.
Local Open Scope list_scope.
Local Open Scope Z_scope.

(** ** Exceptions and the state monad *)

Inductive JsError : Type :=
| ServiceError   (* the generative service rejects: unreachable, timeout, quota *)
| SyntaxError    (* JSON.parse on malformed text *)
| TypeError      (* property access on null or undefined *)
| DecodeError.   (* resizeImage on something that is not an image *)

Inductive Result (A : Type) : Type :=
| Ok (a : A)
| Throw (e : JsError).
Arguments Ok {A} a.
Arguments Throw {A} e.

Definition M (S A : Type) : Type := S → Result A * S.

Definition ret {S A} (a : A) : M S A := λ s, (Ok a, s).

Definition bind {S A B} (m : M S A) (k : A → M S B) : M S B :=
  λ s, match m s with
       | (Ok a, s') => k a s'
       | (Throw e, s') => (Throw e, s')
       end.

Definition throw {S A} (e : JsError) : M S A := λ s, (Throw e, s).

Definition gets {S A} (f : S → A) : M S A := λ s, (Ok (f s), s).

Definition modify {S} (f : S → S) : M S unit := λ s, (Ok tt, f s).

(** [lift_result r] is a promise that is already settled: awaiting it
    returns its value or throws its rejection. *)
Definition lift_result {S A} (r : Result A) : M S A := λ s, (r, s).

(** [try { m } catch (e) { h e }]: state changes made before the throw stay. *)
Definition try_catch {S A} (m : M S A) (h : JsError → M S A) : M S A :=
  λ s, match m s with
       | (Ok a, s') => (Ok a, s')
       | (Throw e, s') => h e s'
       end.

(** [attempt m] runs [m] and hands its outcome to the continuation, for a
    [try] whose [catch] and [finally] blocks are written after it. *)
Definition attempt {S A} (m : M S A) : M S (Result A) :=
  λ s, match m s with (r, s') => (Ok r, s') end.

(** A computation over a part of the state, run inside the whole state. *)
Definition zoom {S T A} (get : S → T) (set : T → S → S) (m : M T A) : M S A :=
  λ s, match m (get s) with (r, t') => (r, set t' s) end.

Notation "'let*' x ':=' m 'in' k" := (bind m (λ x, k))
  (at level 10, x name, m at level 100, k at level 200).
Notation "m *> k" := (bind m (λ _, k))
  (at level 100, k at level 200, right associativity).

(** The values of a list of outcomes in order, or the first failure. *)
Fixpoint sequence {A} (rs : list (Result A)) : Result (list A) :=
  match rs with
  | [] => Ok []
  | Ok a :: rs' =>
      match sequence rs' with
      | Ok l => Ok (a :: l)
      | Throw e => Throw e
      end
  | Throw e :: _ => Throw e
  end.

(** [await Promise.all(ps)] over promises that settle independently: the
    array of the values in input order, or the first rejection. *)
Definition Promise_all {A} (ps : list (Result A)) : Result (list A) :=
  sequence ps.

(** [xs.map(f)] with a callback that may throw: the first throw ends it. *)
Definition map_throwing {A B} (f : A → Result B) (xs : list A) : Result (list B) :=
  sequence (fmap f xs).

(** [l.slice(from, to)] for [0 <= from <= to]; it stops at the end of [l]. *)
Definition slice {A} (l : list A) (from to : nat) : list A :=
  take (to - from) (drop from l).

(** *** JavaScript numbers

    A Number is an IEEE 754 binary64 value, and [/] and [*] give the exact
    result rounded to the nearest such value, ties going to the even
    significand. The values met here are finite, so a Number is written as
    the rational it stands for. *)

(** The integer nearest to [y], a tie going to the even one. *)
Definition round_half_even (y : Q) : Z :=
  let q := Qfloor y in
  match Qcompare (y - inject_Z q) (1 # 2) with
  | Lt => q
  | Gt => q + 1
  | Eq => if Z.even q then q else q + 1
  end.

(** The binary exponent of [x > 0]: [2 ^ e <= x < 2 ^ (e + 1)]. The
    difference of the two logarithms is [e] or [e + 1]. *)
Definition exponent (x : Q) : Z :=
  let e := Z.log2 (Qnum x) - Z.log2 (Z.pos (Qden x)) in
  if Qle_bool (2 ^ e) x then e else e - 1.

(** The binary64 value nearest to [x > 0]: [x] is scaled so that its
    integer part has 53 bits, rounded to an integer, and scaled back. This
    is the normal range; the quotients and products of the scan lie between
    [2 ^ -32] and [2 ^ 39], an array having fewer than [2 ^ 32] elements. *)
Definition nearest_double (x : Q) : Q :=
  let e := exponent x in
  (inject_Z (round_half_even (x * 2 ^ (52 - e))) * 2 ^ (e - 52))%Q.

Definition round64 (x : Q) : Q :=
  match Qcompare x 0 with
  | Eq => 0%Q
  | Gt => nearest_double x
  | Lt => (- nearest_double (- x))%Q
  end.

(** [Math.round(x)]: the integer nearest to [x], a tie going up. *)
Definition Math_round (x : Q) : Z := Qfloor (x + (1 # 2)).

(** [Math.round((num / den) * 100)] for integers [0 <= num] and [0 < den]
    below [2 ^ 53], which are Numbers as they stand: the quotient is
    rounded to a Number, then the product is, then [Math.round] is taken.
    For 92 of 160 this gives 57, where rounding the exact value 57.5
    would give 58. *)
Definition Math_round_percent (num den : Z) : Z :=
  Math_round (round64 (round64 (inject_Z num / inject_Z den) * 100)).

(** A JavaScript value used as a condition: [undefined], [null] and the
    empty string are falsy. *)
Definition truthy (v : option string) : bool :=
  match v with
  | Some s => negb (String.eqb s "")
  | None => false
  end.

(** ** The outside world seen by the adapter and the views *)

(** One element of the [parts] array sent to the service. The prompt is a
    fixed template in which only the two counts vary. *)
Inductive Part : Type :=
| InlineData (mimeType : string) (data : option string)
| TextPrompt (refCount candCount : nat).

Record Response : Type := { text : option string }.

(** What [JSON.parse] gives, as far as the adapter looks at it: [null], or
    an object whose ["matches"] key, when present, holds the array of
    integers that the response schema of the request prescribes. *)
Inductive Json : Type :=
| JNull
| JObject (matches : option (list Z)).

Record World : Type := mkWorld {
  apiCalls : list (list Part);   (* requests sent to generateContent, oldest first *)
  console : list string          (* console.error messages, oldest first *)
}.

Definition console_error {S} (get : S → World) (set : World → S → S)
    (msg : string) : M S unit :=
  modify (λ s, set (mkWorld (apiCalls (get s)) (console (get s) ++ [msg])) s).

(** ** services/geminiService.ts *)

Module Gemini.
Section Adapter.

(** The external service: the answer to the [n]-th request (counted from
    0) with the given parts. It may differ from call to call. *)
Variable generateContent : nat → list Part → Result Response.

(** [JSON.parse]; [Throw SyntaxError] on malformed text. *)
Variable JSON_parse : string → Result Json.

Definition ai_models_generateContent (parts : list Part) : M World Response :=
  λ w, (generateContent (length (apiCalls w)) parts,
        mkWorld (apiCalls w ++ [parts]) (console w)).

(** [result.matches] *)
Definition get_matches (result : Json) : M World (option (list Z)) :=
  match result with
  | JNull => throw TypeError
  | JObject m => ret m
  end.

Definition build_parts (referencePhotosBase64 candidatePhotosBase64 : list (option string))
    : list Part :=
  let parts := [] in
  let parts := parts ++ fmap (InlineData "image/jpeg") referencePhotosBase64 in
  let parts := parts ++ fmap (InlineData "image/jpeg") candidatePhotosBase64 in
  let refCount := length referencePhotosBase64 in
  let candCount := length candidatePhotosBase64 in
  parts ++ [TextPrompt refCount candCount].

Definition findFaceMatches_try
    (referencePhotosBase64 candidatePhotosBase64 : list (option string))
    : M World (list Z) :=
  let parts := build_parts referencePhotosBase64 candidatePhotosBase64 in
  let* response := ai_models_generateContent parts in
  let resultText := text response in
  if negb (truthy resultText) then ret []
  else
    let* result := lift_result (JSON_parse (default "" resultText)) in
    let* m := get_matches result in
    ret (default [] m).

Definition findFaceMatches
    (referencePhotosBase64 candidatePhotosBase64 : list (option string))
    : M World (list Z) :=
  if decide (length candidatePhotosBase64 = 0%nat) then ret []
  else
    try_catch
      (findFaceMatches_try referencePhotosBase64 candidatePhotosBase64)
      (λ error,
         console_error (λ w, w) (λ w _, w) "Gemini Face Match Error:" *>
         ret []).

End Adapter.

(** The ways in which the [try] block of [findFaceMatches] fails to come up
    with an array, on the request [parts] sent as the [n]-th one. *)
Inductive InternalFailure (generateContent : nat → list Part → Result Response)
    (JSON_parse : string → Result Json) (n : nat) (parts : list Part) : Prop :=
| service_throws e :           (* the service is unreachable, or times out *)
    generateContent n parts = Throw e →
    InternalFailure generateContent JSON_parse n parts
| empty_text r :               (* response.text is undefined or empty *)
    generateContent n parts = Ok r → truthy (text r) = false →
    InternalFailure generateContent JSON_parse n parts
| malformed_text r t e :       (* JSON.parse throws *)
    generateContent n parts = Ok r → text r = Some t → JSON_parse t = Throw e →
    InternalFailure generateContent JSON_parse n parts
| null_result r t :            (* the text is the JSON value null *)
    generateContent n parts = Ok r → text r = Some t → JSON_parse t = Ok JNull →
    InternalFailure generateContent JSON_parse n parts
| missing_matches r t :        (* the object has no "matches" key *)
    generateContent n parts = Ok r → text r = Some t → JSON_parse t = Ok (JObject None) →
    InternalFailure generateContent JSON_parse n parts.

End Gemini.

(** ** types.ts *)

Record File : Type := mkFile { file_name : string; file_data : string }.

Record Photo : Type := mkPhoto {
  id : string;
  url : string;
  file : File;
  timestamp : Z;
  optimizedBase64 : option string;   (* None: the key is absent *)
  processed : bool
}.

(** ** views/ClientPortal.tsx: the React state of the component *)

Inductive RecordingStep : Type :=
| IDLE | STRAIGHT | LEFT | RIGHT | SMILE | COMPLETED.

(** A [MediaStream] handed out by [getUserMedia]. *)
Definition MediaStream : Type := nat.

Record Portal : Type := mkPortal {
  referenceFrames : list (option string);  (* an entry is None when it is undefined *)
  displaySelfie : option string;
  isScanning : bool;
  matchedPhotoIds : list string;
  scanProgress : Z;
  error : option string;
  showCamera : bool;
  cameraStream : option MediaStream;
  recordingStep : RecordingStep;
  stepProgress : Q;
  waSent : bool
}.

(** The state of the first render: the arguments of the [useState] calls. *)
Definition initialPortal : Portal :=
  {| referenceFrames := []; displaySelfie := None; isScanning := false;
     matchedPhotoIds := []; scanProgress := 0; error := None;
     showCamera := false; cameraStream := None; recordingStep := IDLE;
     stepProgress := 0%Q; waSent := false |}.

Definition set_referenceFrames (v : list (option string)) (p : Portal) : Portal :=
  mkPortal v (displaySelfie p) (isScanning p) (matchedPhotoIds p) (scanProgress p)
    (error p) (showCamera p) (cameraStream p) (recordingStep p) (stepProgress p) (waSent p).
Definition set_displaySelfie (v : option string) (p : Portal) : Portal :=
  mkPortal (referenceFrames p) v (isScanning p) (matchedPhotoIds p) (scanProgress p)
    (error p) (showCamera p) (cameraStream p) (recordingStep p) (stepProgress p) (waSent p).
Definition set_isScanning (v : bool) (p : Portal) : Portal :=
  mkPortal (referenceFrames p) (displaySelfie p) v (matchedPhotoIds p) (scanProgress p)
    (error p) (showCamera p) (cameraStream p) (recordingStep p) (stepProgress p) (waSent p).
Definition set_matchedPhotoIds (v : list string) (p : Portal) : Portal :=
  mkPortal (referenceFrames p) (displaySelfie p) (isScanning p) v (scanProgress p)
    (error p) (showCamera p) (cameraStream p) (recordingStep p) (stepProgress p) (waSent p).
Definition set_scanProgress (v : Z) (p : Portal) : Portal :=
  mkPortal (referenceFrames p) (displaySelfie p) (isScanning p) (matchedPhotoIds p) v
    (error p) (showCamera p) (cameraStream p) (recordingStep p) (stepProgress p) (waSent p).
Definition set_error (v : option string) (p : Portal) : Portal :=
  mkPortal (referenceFrames p) (displaySelfie p) (isScanning p) (matchedPhotoIds p)
    (scanProgress p) v (showCamera p) (cameraStream p) (recordingStep p) (stepProgress p)
    (waSent p).
Definition set_showCamera (v : bool) (p : Portal) : Portal :=
  mkPortal (referenceFrames p) (displaySelfie p) (isScanning p) (matchedPhotoIds p)
    (scanProgress p) (error p) v (cameraStream p) (recordingStep p) (stepProgress p)
    (waSent p).
Definition set_cameraStream (v : option MediaStream) (p : Portal) : Portal :=
  mkPortal (referenceFrames p) (displaySelfie p) (isScanning p) (matchedPhotoIds p)
    (scanProgress p) (error p) (showCamera p) v (recordingStep p) (stepProgress p)
    (waSent p).
Definition set_recordingStep (v : RecordingStep) (p : Portal) : Portal :=
  mkPortal (referenceFrames p) (displaySelfie p) (isScanning p) (matchedPhotoIds p)
    (scanProgress p) (error p) (showCamera p) (cameraStream p) v (stepProgress p)
    (waSent p).
Definition set_stepProgress (v : Q) (p : Portal) : Portal :=
  mkPortal (referenceFrames p) (displaySelfie p) (isScanning p) (matchedPhotoIds p)
    (scanProgress p) (error p) (showCamera p) (cameraStream p) (recordingStep p) v
    (waSent p).
Definition set_waSent (v : bool) (p : Portal) : Portal :=
  mkPortal (referenceFrames p) (displaySelfie p) (isScanning p) (matchedPhotoIds p)
    (scanProgress p) (error p) (showCamera p) (cameraStream p) (recordingStep p)
    (stepProgress p) v.

(** ** views/ClientPortal.tsx: the scan *)

Module Scan.

(** The component state together with what the scan does to the outside:
    the requests and log lines it causes, and every value it passes to
    [setScanProgress], oldest first. *)
Record State : Type := mkState {
  ui : Portal;
  world : World;
  published : list Z
}.

Definition on_ui (f : Portal → Portal) : M State unit :=
  modify (λ s, mkState (f (ui s)) (world s) (published s)).

Definition set_world (w : World) (s : State) : State :=
  mkState (ui s) w (published s).

Definition setIsScanning (v : bool) : M State unit := on_ui (set_isScanning v).
Definition setError (v : option string) : M State unit := on_ui (set_error v).
Definition setWaSent (v : bool) : M State unit := on_ui (set_waSent v).

(** [setMatchedPhotoIds(prev => f prev)]; a constant is [λ _, v]. *)
Definition setMatchedPhotoIds (f : list string → list string) : M State unit :=
  on_ui (λ p, set_matchedPhotoIds (f (matchedPhotoIds p)) p).

Definition setScanProgress (v : Z) : M State unit :=
  modify (λ s, mkState (set_scanProgress v (ui s)) (world s) (published s ++ [v])).

Definition BATCH_SIZE : nat := 4.

(** The local variables of one invocation of [startScan], as they stand
    when the invocation is suspended at the head of its loop. *)
Record Run : Type := mkRun {
  run_referenceFrames : list (option string);  (* the state read by the closure *)
  photosToScan : list Photo;
  i : nat;
  foundMatches : list string
}.

Section WithEnvironment.

Variable generateContent : nat → list Part → Result Response.
Variable JSON_parse : string → Result Json.

(** [resizeImage(file, maxWidth)] of the utils module: the encoded image,
    or a rejection. *)
Variable resizeImage : File → Z → Result string.

(** The callback of [chunk.map] in [startScan]. *)
Definition candidateBase64 (p : Photo) : Result string :=
  if truthy (optimizedBase64 p) then Ok (default "" (optimizedBase64 p))
  else resizeImage (file p) 600.

(** [chunk[idx].id]: outside the chunk, [chunk[idx]] is undefined. *)
Definition chunk_id (chunk : list Photo) (idx : Z) : Result string :=
  if 0 <=? idx then
    match chunk !! Z.to_nat idx with
    | Some p => Ok (id p)
    | None => Throw TypeError
    end
  else Throw TypeError.

(** The body of the [for] loop. *)
Definition scanIteration (r : Run) : M State Run :=
  let totalPhotos := length (photosToScan r) in
  let chunk := slice (photosToScan r) (i r) (i r + BATCH_SIZE) in
  let* candidateBase64s := lift_result (Promise_all (fmap candidateBase64 chunk)) in
  let* indices :=
    zoom world set_world
      (Gemini.findFaceMatches generateContent JSON_parse
         (run_referenceFrames r) (fmap Some candidateBase64s)) in
  let* chunkMatchIds := lift_result (map_throwing (chunk_id chunk) indices) in
  setMatchedPhotoIds (λ prev, prev ++ chunkMatchIds) *>
  setScanProgress
    (Z.min 100 (Math_round_percent (Z.of_nat (i r + BATCH_SIZE)) (Z.of_nat totalPhotos))) *>
  ret (mkRun (run_referenceFrames r) (photosToScan r) (i r + BATCH_SIZE)
         (foundMatches r ++ chunkMatchIds)).

Definition scanCatch (err : JsError) : M State unit :=
  setError (Some "AI service unavailable or interrupted. Please try again.") *>
  console_error world set_world "scan error".

Definition scanFinally : M State unit :=
  setIsScanning false *>
  setScanProgress 100.

(** The loop test. When it holds the invocation goes on into the body and
    is suspended at its first [await]; otherwise the loop is left and the
    [finally] block runs. *)
Definition loopHead (r : Run) : M State (option Run) :=
  if decide (i r < length (photosToScan r))%nat then ret (Some r)
  else scanFinally *> ret None.

(** The click on "Find Matches": [startScan] up to its first [await]. *)
Definition startScan (eventPhotos : list Photo) : M State (option Run) :=
  let* referenceFrames := gets (λ s, referenceFrames (ui s)) in
  if decide (length referenceFrames = 0%nat ∨ length eventPhotos = 0%nat) then ret None
  else
    setIsScanning true *>
    setScanProgress 0 *>
    setMatchedPhotoIds (λ _, []) *>
    setError None *>
    setWaSent false *>
    let photosToScan := eventPhotos in
    loopHead (mkRun referenceFrames photosToScan 0 []).

(** A suspended invocation is resumed: the body of the loop for the
    current chunk, then the loop test; a throw in the body goes to the
    [catch] block and then to [finally]. *)
Definition resumeScan (r : Run) : M State (option Run) :=
  let* outcome := attempt (scanIteration r) in
  match outcome with
  | Ok r' => loopHead r'
  | Throw err => scanCatch err *> scanFinally *> ret None
  end.

Definition handleDeselect (photoId : string) : M State unit :=
  setMatchedPhotoIds (filter (λ x, x ≠ photoId)).

(** The client while a scan may be under way: its state and the
    suspended invocation of [startScan], if there is one. *)
Record Client : Type := mkClient {
  state : State;
  pending : option Run
}.

(** What can happen to the client. The body of the loop awaits twice, but it
    touches the state only after the second await, and then in one go; so
    a deselection that arrives while it waits acts as if it had come just
    before the resumption. *)
Inductive Event : Type :=
| Resume                        (* the awaited promises of the current chunk settle *)
| Deselect (photoId : string).  (* the user removes a displayed match *)

Definition step (c : Client) (ev : Event) : Client :=
  match ev with
  | Resume =>
      match pending c with
      | None => c
      | Some r =>
          match resumeScan r (state c) with
          | (Ok next, s') => mkClient s' next
          | (Throw _, s') => mkClient s' None
          end
      end
  | Deselect photoId => mkClient (snd (handleDeselect photoId (state c))) (pending c)
  end.

Definition exec (c : Client) (evs : list Event) : Client := foldl step c evs.

Definition click_startScan (eventPhotos : list Photo) (s : State) : Client :=
  match startScan eventPhotos s with
  | (Ok next, s') => mkClient s' next
  | (Throw _, s') => mkClient s' None
  end.

(** A scan that nobody interferes with, from the click to its end: every
    resumption advances [i] by [BATCH_SIZE], so [length eventPhotos]
    resumptions are more than enough. *)
Definition runScan (eventPhotos : list Photo) (s : State) : Client :=
  exec (click_startScan eventPhotos s) (replicate (length eventPhotos) Resume).

(** *** Notions used in the statements about the scan *)

(** The chunk that the suspended invocation [r] is working on. *)
Definition chunkOf (r : Run) : list Photo :=
  slice (photosToScan r) (i r) (i r + BATCH_SIZE).

(** The value handed to [setScanProgress] once the candidates before
    position [k], out of [total], have been processed. *)
Definition progressAt (k total : nat) : Z :=
  Z.min 100 (Math_round_percent (Z.of_nat k) (Z.of_nat total)).

(** The state in which a throw in the body of the loop leaves the scan:
    the [catch] block, then [finally], from state [s] with world [w]. *)
Definition failed (s : State) (w : World) : State :=
  mkState
    (set_scanProgress 100
       (set_isScanning false
          (set_error (Some "AI service unavailable or interrupted. Please try again.")
             (ui s))))
    (mkWorld (apiCalls w) (console w ++ ["scan error"]))
    (published s ++ [100]).

(** The state after the body of the loop has gone through for [r] with
    the matched ids [ids], the adapter having left the world [w]. *)
Definition advanced (r : Run) (s : State) (w : World) (ids : list string) : State :=
  mkState
    (set_scanProgress (progressAt (i r + BATCH_SIZE) (length (photosToScan r)))
       (set_matchedPhotoIds (matchedPhotoIds (ui s) ++ ids) (ui s)))
    w
    (published s ++ [progressAt (i r + BATCH_SIZE) (length (photosToScan r))]).

Definition nextRun (r : Run) (ids : list string) : Run :=
  mkRun (run_referenceFrames r) (photosToScan r) (i r + BATCH_SIZE)
    (foundMatches r ++ ids).

(** The state after the synchronous part of [startScan], from [s]. *)
Definition started (s : State) : State :=
  mkState
    (set_waSent false
       (set_error None
          (set_matchedPhotoIds []
             (set_scanProgress 0 (set_isScanning true (ui s))))))
    (world s)
    (published s ++ [0]).

(** The state after the [finally] block, from [s]. *)
Definition finished (s : State) : State :=
  mkState (set_scanProgress 100 (set_isScanning false (ui s))) (world s)
    (published s ++ [100]).

(** How far into [photos] the scan has got: the loop index of the
    suspended invocation, or the end when there is none. *)
Definition cursor (photos : list Photo) (c : Client) : nat :=
  match pending c with
  | Some r => i r
  | None => length photos
  end.

(** A client in the middle of a scan of [photos]: a suspended invocation
    is inside the list, and every matched id is the id of a candidate
    before the cursor. *)
Definition Consistent (photos : list Photo) (c : Client) : Prop :=
  (∀ r, pending c = Some r → photosToScan r = photos ∧ (i r < length photos)%nat) ∧
  matchedPhotoIds (ui (state c)) ⊆ id <$> take (cursor photos c) photos.

(** The progress values published since the click, after those in
    [base]: they never decrease, stay below what the cursor allows, and
    end with 100 once no invocation is suspended. *)
Definition Monotone (base : list Z) (photos : list Photo) (c : Client) : Prop :=
  ∃ vs, published (state c) = base ++ vs ∧
        StronglySorted Z.le vs ∧
        Forall (λ v, v ≤ progressAt (cursor photos c) (length photos)) vs ∧
        (pending c = None → last vs = Some 100).

(** What the adapter returns for the chunk that is sent as the [n]-th
    request, whatever the chunk. *)
Definition oracleReturns (n : nat) (indices : list Z) : Prop :=
  ∀ refs cands w, cands ≠ [] → length (apiCalls w) = n →
    fst (Gemini.findFaceMatches generateContent JSON_parse refs cands w) = Ok indices.

(** No answer of the adapter names a candidate twice. *)
Definition oracleNeverRepeats : Prop :=
  ∀ refs cands w indices,
    fst (Gemini.findFaceMatches generateContent JSON_parse refs cands w) = Ok indices →
    NoDup indices.

End WithEnvironment.
End Scan.

(** ** views/ClientPortal.tsx: the capture sequence *)

Module Capture.

(** [s.split(',')] *)
Fixpoint split_comma (s : string) : list string :=
  match s with
  | EmptyString => [EmptyString]
  | String c rest =>
      if Ascii.eqb c ","%char then EmptyString :: split_comma rest
      else match split_comma rest with
           | h :: t => String c h :: t
           | [] => [String c EmptyString]
           end
  end.

(** A [setInterval] created by a call of [runStep], with what its callback
    closes over. *)
Record Interval : Type := mkInterval {
  iv_step : RecordingStep;                  (* the [step] argument of [runStep] *)
  startTime : Z;
  frames : list string;                     (* the [frames] array of the sequence *)
  seen_cameraStream : option MediaStream    (* [cameraStream] in the render whose
                                               handler started the sequence *)
}.

Inductive Timer : Type :=
| IntervalTimer (iv : Interval)
| CloseTimeout (seen : option MediaStream).  (* setTimeout(() => stopCamera(), 1000) *)

Record State : Type := mkState {
  ui : Portal;
  mounted : bool;
  liveStreams : list MediaStream;   (* streams whose tracks have not been stopped *)
  timers : list Timer;
  console : list string
}.

Definition initial : State :=
  mkState initialPortal true [] [] [].

(** A state setter; React drops updates of a component that is unmounted. *)
Definition on_ui (f : Portal → Portal) (s : State) : State :=
  if mounted s then mkState (f (ui s)) (mounted s) (liveStreams s) (timers s) (console s)
  else s.

Definition set_timers (ts : list Timer) (s : State) : State :=
  mkState (ui s) (mounted s) (liveStreams s) ts (console s).

(** [stream.getTracks().forEach(track => track.stop())] *)
Definition stopTracks (stream : MediaStream) (s : State) : State :=
  mkState (ui s) (mounted s) (filter (λ x, x ≠ stream) (liveStreams s)) (timers s) (console s).

Definition startCamera (getUserMedia : Result MediaStream) (s : State) : State :=
  let s := on_ui (set_error None) s in
  let s := on_ui (set_referenceFrames []) s in
  let s := on_ui (set_recordingStep IDLE) s in
  let s := on_ui (set_stepProgress 0%Q) s in
  match getUserMedia with
  | Ok stream =>
      let s := mkState (ui s) (mounted s) (liveStreams s ++ [stream]) (timers s) (console s) in
      let s := on_ui (set_cameraStream (Some stream)) s in
      on_ui (set_showCamera true) s
  | Throw err =>
      let s := mkState (ui s) (mounted s) (liveStreams s) (timers s)
                 (console s ++ ["getUserMedia failed"]) in
      on_ui (set_error
        (Some "Unable to access camera. Please allow permissions or use the upload option.")) s
  end.

(** [stopCamera] as the closure of a render in which [cameraStream] was
    [seen]. *)
Definition stopCamera (seen : option MediaStream) (s : State) : State :=
  let s := match seen with
           | Some stream => on_ui (set_cameraStream None) (stopTracks stream s)
           | None => s
           end in
  let s := on_ui (set_showCamera false) s in
  on_ui (set_recordingStep IDLE) s.

(** [captureFrame]. The video element is in the document, and
    [videoRef.current] set, exactly while the camera modal is rendered;
    [canvas] is what drawing the current video frame and encoding it gives:
    [None] when there is no 2d context. *)
Definition captureFrame (canvas : option string) (s : State) : option string :=
  if negb (mounted s && showCamera (ui s)) then None
  else canvas.

Definition STEP_DURATION : Z := 4500.

Definition finishRecording (frames : list string) (seen : option MediaStream)
    (s : State) : State :=
  if decide (0 < length frames)%nat then
    let s := on_ui (set_displaySelfie (frames !! 0%nat)) s in
    let cleanFrames := fmap (λ f, split_comma f !! 1%nat) frames in
    let s := on_ui (set_referenceFrames cleanFrames) s in
    let s := on_ui (set_matchedPhotoIds []) s in
    let s := on_ui (set_error None) s in
    let s := on_ui (set_waSent false) s in
    set_timers (timers s ++ [CloseTimeout seen]) s
  else
    let s := on_ui (set_error (Some "Failed to capture video frames.")) s in
    stopCamera seen s.

(** [runStep(step, next)] up to the creation of its interval. *)
Definition runStep (step : RecordingStep) (now : Z) (frames : list string)
    (seen : option MediaStream) (s : State) : State :=
  let s := on_ui (set_recordingStep step) s in
  let s := on_ui (set_stepProgress 0%Q) s in
  set_timers (timers s ++ [IntervalTimer (mkInterval step now frames seen)]) s.

(** The [next] callback handed to [runStep] for each step of the sequence
    Straight, Left, Right, Smile. *)
Definition next (step : RecordingStep) (now : Z) (frames : list string)
    (seen : option MediaStream) (s : State) : State :=
  match step with
  | STRAIGHT => runStep LEFT now frames seen s
  | LEFT => runStep RIGHT now frames seen s
  | RIGHT => runStep SMILE now frames seen s
  | _ =>
      let s := on_ui (set_recordingStep COMPLETED) s in
      finishRecording frames seen s
  end.

Definition runRecordingSequence (now : Z) (s : State) : State :=
  runStep STRAIGHT now [] (cameraStream (ui s)) s.

(** The callback of the interval [iv], the [k]-th timer, at time [now]. *)
Definition intervalCallback (k : nat) (iv : Interval) (now : Z) (canvas : option string)
    (s : State) : State :=
  let elapsed := now - startTime iv in
  let prog := Qmin 100 (inject_Z elapsed / inject_Z STEP_DURATION * 100)%Q in
  let s := on_ui (set_stepProgress prog) s in
  if decide (elapsed >= STEP_DURATION) then
    let s := set_timers (delete k (timers s)) s in        (* clearInterval(interval) *)
    let frame := captureFrame canvas s in
    let frames := if truthy frame then frames iv ++ [default "" frame] else frames iv in
    next (iv_step iv) now frames (seen_cameraStream iv) s
  else s.

(** The cleanup function of the effect [useEffect(..., [])]: with an empty
    dependency list the effect of the first render is the only one that is
    ever installed, so the [cameraStream] its cleanup reads is [seen], the
    state of the first render. *)
Definition unmountCleanup (seen : option MediaStream) (s : State) : State :=
  match seen with
  | Some stream => stopTracks stream s
  | None => s
  end.

Inductive Event : Type :=
| OpenCamera (getUserMedia : Result MediaStream)  (* a click on a control bound to startCamera *)
| StartSequence (now : Z)                         (* the start button of the IDLE overlay *)
| CloseCamera                                     (* the close button of the camera modal *)
| Fire (k : nat) (now : Z) (canvas : option string)  (* the k-th pending timer fires *)
| Unmount.                                        (* the component is torn down *)

Definition step (s : State) (ev : Event) : State :=
  match ev with
  | OpenCamera getUserMedia =>
      if mounted s then startCamera getUserMedia s else s
  | StartSequence now =>
      if mounted s && showCamera (ui s)
         && match recordingStep (ui s) with IDLE => true | _ => false end
      then runRecordingSequence now s
      else s
  | CloseCamera =>
      if mounted s && showCamera (ui s) then stopCamera (cameraStream (ui s)) s else s
  | Fire k now canvas =>
      match timers s !! k with
      | Some (IntervalTimer iv) => intervalCallback k iv now canvas s
      | Some (CloseTimeout seen) => stopCamera seen (set_timers (delete k (timers s)) s)
      | None => s
      end
  | Unmount =>
      if mounted s then
        let s := unmountCleanup (cameraStream initialPortal) s in
        mkState (ui s) false (liveStreams s) (timers s) (console s)
      else s
  end.

Definition exec (s : State) (evs : list Event) : State := foldl step s evs.

(** The timer at the head of the list firing on an ideal clock: tick [j]
    comes 50 ms after tick [j - 1], tick 0 being the time [t0] of the click
    on the start button; [canvas j] is what the camera shows at tick [j]. *)
Definition idealTick (t0 : Z) (canvas : nat → option string) (j : nat) : Event :=
  Fire 0 (t0 + 50 * Z.of_nat j) (canvas j).

Definition idealTicks (t0 : Z) (canvas : nat → option string) (from n : nat) : list Event :=
  fmap (idealTick t0 canvas) (seq from n).

(** A capture session on the ideal clock: the click at [t0], then [n] ticks. *)
Definition session (t0 : Z) (canvas : nat → option string) (n : nat) (s : State) : State :=
  exec (step s (StartSequence t0)) (idealTicks t0 canvas 1 n).


(** The step shown during pose [p], counted from 0. *)
Definition pose (p : nat) : RecordingStep :=
  match p with
  | O => STRAIGHT
  | 1%nat => LEFT
  | 2%nat => RIGHT
  | _ => SMILE
  end.


(** *** Sessions on any clock *)






End Capture.

(** ** views/PhotographerDashboard.tsx: the background indexing effect

    This module is one instance of the component, from its mount on: its
    hooks, the closures of its renders, and the photos it is handed. The
    dashboard being left and entered again, which makes a second instance
    over the same photos, is in [App] below, which runs the steps of this
    module for each instance. *)

Module Dashboard.

(** An invocation of [processNextBatch] suspended at its [await]. *)
Record Batch : Type := mkBatch {
  batch : list Photo;
  seen_photos : list Photo    (* [photos] in the render whose effect made the call *)
}.

Record State : Type := mkState {
  photos : list Photo;
  processingQueue : list string;
  processingRef : bool;            (* processingRef.current *)
  inFlight : list Batch;           (* suspended invocations, oldest first *)
  timers : list (list Photo);      (* pending setTimeout(processNextBatch, 100), each with
                                      the [photos] its closure reads; oldest first *)
  console : list string
}.

(** What [generateId], [URL.createObjectURL] and [Date.now] give for one
    dropped or selected file. *)
Record Upload : Type := mkUpload {
  new_id : string;
  new_url : string;
  new_file : File;
  now : Z
}.

Definition mount (photos : list Photo) : State :=
  mkState photos [] false [] [] [].

Definition setPhotos (f : list Photo → list Photo) (s : State) : State :=
  mkState (f (photos s)) (processingQueue s) (processingRef s) (inFlight s) (timers s)
    (console s).

Definition setProcessingQueue (q : list string) (s : State) : State :=
  mkState (photos s) q (processingRef s) (inFlight s) (timers s) (console s).

Definition set_processingRef (b : bool) (s : State) : State :=
  mkState (photos s) (processingQueue s) b (inFlight s) (timers s) (console s).

Definition set_inFlight (l : list Batch) (s : State) : State :=
  mkState (photos s) (processingQueue s) (processingRef s) l (timers s) (console s).

Definition setTimeout (seen : list Photo) (s : State) : State :=
  mkState (photos s) (processingQueue s) (processingRef s) (inFlight s) (timers s ++ [seen])
    (console s).

Definition console_error (msg : string) (s : State) : State :=
  mkState (photos s) (processingQueue s) (processingRef s) (inFlight s) (timers s)
    (console s ++ [msg]).

Definition processFiles (files : list Upload) (s : State) : State :=
  let newPhotos :=
    fmap (λ f, mkPhoto (new_id f) (new_url f) (new_file f) (now f) None false) files in
  setPhotos (λ prev, prev ++ newPhotos) s.

Definition clearGallery (s : State) : State := setPhotos (λ _, []) s.

Section WithEnvironment.

(** [resizeImage(file, maxWidth)] of the utils module: the encoded image,
    or a rejection. *)
Variable resizeImage : File → Z → Result string.

(** [processNextBatch] in a render whose [photos] is [seen], up to its
    [await]. *)
Definition processNextBatch (seen : list Photo) (s : State) : State :=
  if processingRef s then s
  else
    let unprocessed := filter (λ p, processed p = false) seen in
    if decide (length unprocessed = 0%nat) then s
    else
      let s := set_processingRef true s in
      let batch := slice unprocessed 0 3 in
      let s := setProcessingQueue (fmap id batch) s in
      set_inFlight (inFlight s ++ [mkBatch batch seen]) s.

(** The callback of [batch.map]. *)
Definition indexPhoto (photo : Photo) : Result (string * string) :=
  match resizeImage (file photo) 600 with
  | Ok optimized => Ok (id photo, optimized)
  | Throw e => Throw e
  end.

(** The updater handed to [setPhotos]. *)
Definition applyUpdates (updates : list (string * string)) (prev : list Photo)
    : list Photo :=
  fmap (λ p,
         match List.find (λ u, String.eqb (fst u) (id p)) updates with
         | Some update =>
             mkPhoto (id p) (url p) (file p) (timestamp p) (Some (snd update)) true
         | None => p
         end) prev.

(** The rest of the invocation [b] once its [Promise.all] has settled:
    the end of the [try] block or the [catch] block, then [finally]. *)
Definition settle (b : Batch) (s : State) : State :=
  let s :=
    match Promise_all (fmap indexPhoto (batch b)) with
    | Ok updates => setPhotos (applyUpdates updates) s
    | Throw err => console_error "Indexing failed for batch" s
    end in
  let s := setProcessingQueue [] s in
  let s := set_processingRef false s in
  if existsb (λ p, negb (processed p)) (seen_photos b) then setTimeout (seen_photos b) s
  else s.

Inductive Event : Type :=
| Drop (files : list Upload)   (* files are dropped or selected *)
| Clear                        (* the gallery is cleared and the prompt confirmed *)
| Effect                       (* the effect of the latest render runs *)
| Timer                        (* the oldest pending retry timer fires *)
| Settle.                      (* the promise awaited by the oldest suspended
                                  invocation settles *)

Definition step (s : State) (ev : Event) : State :=
  match ev with
  | Drop files => processFiles files s
  | Clear => clearGallery s
  | Effect => processNextBatch (photos s) s
  | Timer =>
      match timers s with
      | seen :: rest =>
          processNextBatch seen
            (mkState (photos s) (processingQueue s) (processingRef s) (inFlight s) rest
               (console s))
      | [] => s
      end
  | Settle =>
      match inFlight s with
      | b :: rest => settle b (set_inFlight rest s)
      | [] => s
      end
  end.

Definition exec (s : State) (evs : list Event) : State := foldl step s evs.

End WithEnvironment.

(** A photo that is marked as indexed carries its representation. *)
Definition indexed_has_representation (p : Photo) : Prop :=
  processed p = true → is_Some (optimizedBase64 p).

(** The reentrancy guard does its job: no invocation is suspended while the
    flag is down, in which case nothing is displayed as in flight either,
    and exactly one is while it is up; and every photo marked as indexed
    carries its representation. *)
Definition Guarded (s : State) : Prop :=
  match inFlight s with
  | [] => processingRef s = false ∧ processingQueue s = []
  | [_] => processingRef s = true
  | _ => False
  end
  ∧ Forall indexed_has_representation (photos s).

End Dashboard.

(** ** views/ClientPortal.tsx: what is rendered, and the uploaded selfie *)

Module Views.

(** [const matchedPhotos = eventPhotos.filter(p => matchedPhotoIds.includes(p.id))]:
    the photos of the results grid, each with its download and its
    deselect button. *)
Definition matchedPhotos (eventPhotos : list Photo) (p : Portal) : list Photo :=
  filter (λ photo, id photo ∈ matchedPhotoIds p) eventPhotos.

(** The three things that can stand beside the selfie preview. *)
Inductive ScanControl : Type :=
| FindMatchesButton    (* the button bound to startScan *)
| ComparingProgress    (* "Comparing with Indexed IDs... n%" *)
| AnalysisComplete.    (* "Analysis Complete" *)

(** The conditional in the JSX:
    [!isScanning && matchedPhotoIds.length === 0 && !scanProgress ? ... :
     isScanning ? ... : ...]. *)
Definition scanControl (p : Portal) : ScanControl :=
  if negb (isScanning p) && (length (matchedPhotoIds p) =? 0)%nat && (scanProgress p =? 0)
  then FindMatchesButton
  else if isScanning p then ComparingProgress
  else AnalysisComplete.

(** [handleSelfieSelect]: [selected] is [e.target.files[0]], if there is
    one, with the object URL made for it. The handler awaits [resizeImage]
    between its first setter and the others; all of them set constants, so
    it is written in one go. *)
Definition handleSelfieSelect (resizeImage : File → Z → Result string)
    (selected : option (File * string)) (p : Portal) : Portal :=
  match selected with
  | None => p
  | Some (file, url) =>
      let p := set_displaySelfie (Some url) p in
      match resizeImage file 600 with
      | Ok base64 =>
          let p := set_referenceFrames [Some base64] p in
          let p := set_matchedPhotoIds [] p in
          let p := set_error None p in
          set_waSent false p
      | Throw err =>
          set_error (Some "Failed to process photo. Please try again.") p
      end
  end.

(** No comma occurs in [s]: the media type header of a data URL and its
    base64 payload are such strings. *)
Fixpoint commaFree (s : string) : bool :=
  match s with
  | EmptyString => true
  | String c rest => negb (Ascii.eqb c ","%char) && commaFree rest
  end.

(** The progress bar of a pose does not stand beyond its end. *)
Definition BarWithinRange (p : Portal) : Prop := (stepProgress p <= 100)%Q.

(** A scan has come to its end: the flag is down and the progress stands
    at 100. *)
Definition ScanEnded (p : Portal) : Prop :=
  isScanning p = false ∧ scanProgress p = 100.

(** The two pieces of state that only [startScan] writes. *)
Definition scanFlags (p : Portal) : bool * Z := (isScanning p, scanProgress p).

End Views.

(** ** views/ClientPortal.tsx: the guest at large *)

Module Guest.

(** What the flags show of a scan: the scanning flag is up and no error is
    set while an invocation is suspended; afterwards the flag is down, the
    progress stands at 100 and the error, if any, is the one of the scan. *)
Definition Flags (c : Scan.Client) : Prop :=
  match Scan.pending c with
  | Some _ =>
      isScanning (Scan.ui (Scan.state c)) = true
      ∧ error (Scan.ui (Scan.state c)) = None
  | None =>
      isScanning (Scan.ui (Scan.state c)) = false
      ∧ scanProgress (Scan.ui (Scan.state c)) = 100
      ∧ (error (Scan.ui (Scan.state c)) = None
         ∨ error (Scan.ui (Scan.state c))
            = Some "AI service unavailable or interrupted. Please try again.")
  end.

(** The updater of [handleDeselect], on the component state. *)
Definition deselect (photoId : string) (p : Portal) : Portal :=
  set_matchedPhotoIds (filter (λ x, x ≠ photoId) (matchedPhotoIds p)) p.

(** What the guest can do apart from starting a scan: choose a file for
    the selfie, act on the camera and its timers, and deselect a match. *)
Inductive Action : Type :=
| SelectSelfie (selected : option (File * string))
| Camera (ev : Capture.Event)
| DeselectPhoto (photoId : string).

Section WithNormalizer.

Variable resizeImage : File → Z → Result string.

Definition act (s : Capture.State) (a : Action) : Capture.State :=
  match a with
  | SelectSelfie selected =>
      Capture.on_ui (Views.handleSelfieSelect resizeImage selected) s
  | Camera ev => Capture.step s ev
  | DeselectPhoto photoId => Capture.on_ui (deselect photoId) s
  end.

Definition acts (s : Capture.State) (l : list Action) : Capture.State := foldl act s l.

End WithNormalizer.

End Guest.

(** ** views/PhotographerDashboard.tsx: the counters and the gallery *)

Module Gallery.
Import Dashboard.

(** [const pendingCount = photos.filter(p => !p.processed).length] *)
Definition pendingCount (s : State) : nat :=
  length (filter (λ p, processed p = false) (photos s)).

(** [const processedCount = photos.length - pendingCount] *)
Definition processedCount (s : State) : nat :=
  (length (photos s) - pendingCount s)%nat.

(** What indexing is not meant to touch in a photo. *)
Definition identity (p : Photo) : string * string * File * Z :=
  (id p, url p, file p, timestamp p).

(** The events by which the indexing effect itself acts. *)
Definition indexing (ev : Event) : Prop :=
  match ev with
  | Effect | Timer | Settle => True
  | Drop _ | Clear => False
  end.

(** [q] is [p] as indexing may leave it: the same photo, not unmarked. *)
Definition marks (p q : Photo) : Prop :=
  identity p = identity q ∧ (processed p = true → processed q = true).



(** The only suspended invocation, if any, holds the first three photos
    that were pending in its snapshot, and they are what the queue shows. *)
Definition BatchShaped (s : State) : Prop :=
  match inFlight s with
  | [] => processingRef s = false
  | [b] =>
      processingRef s = true
      ∧ batch b = slice (filter (λ p, processed p = false) (seen_photos b)) 0 3
      ∧ batch b ≠ []
      ∧ processingQueue s = id <$> batch b
  | _ => False
  end.

End Gallery.

(** ** App.tsx: the dashboard comes and goes

    [App] owns the photos and the mode, and renders the dashboard only
    while the mode is PHOTOGRAPHER: leaving it unmounts the instance, and
    coming back mounts a new one, with a queue and a [processingRef] of its
    own. The effect of the dashboard has no cleanup, so the invocations
    and timers of an instance outlive it: they go on reading and writing
    its ref, and writing the photos of the app. *)

Module App.

(** [enum AppMode] of types.ts *)
Inductive AppMode : Type := LANDING | PHOTOGRAPHER | CLIENT.

(** What belongs to one instance of [PhotographerDashboard]: its hooks,
    and the closures that its renders have left behind. *)
Record Instance : Type := mkInstance {
  processingQueue : list string;
  processingRef : bool;
  inFlight : list Dashboard.Batch;
  timers : list (list Photo)
}.

(** The hooks of a first render. *)
Definition freshInstance : Instance := mkInstance [] false [] [].

Record State : Type := mkState {
  mode : AppMode;
  eventPhotos : list Photo;
  dashboards : list Instance;   (* every instance that has been mounted, oldest first;
                                   the last is in the tree while the mode is PHOTOGRAPHER *)
  console : list string
}.

(** The first render of [App]. *)
Definition initial : State := mkState LANDING [] [] [].

(** [setMode(newMode)], from the landing buttons, Exit Dashboard,
    [onSwitchMode] and [onBack]. *)
Definition setMode (newMode : AppMode) (s : State) : State :=
  match newMode, mode s with
  | PHOTOGRAPHER, PHOTOGRAPHER => s
  | PHOTOGRAPHER, _ =>
      mkState PHOTOGRAPHER (eventPhotos s) (dashboards s ++ [freshInstance]) (console s)
  | _, _ => mkState newMode (eventPhotos s) (dashboards s) (console s)
  end.

(** Instance [k] is in the tree. *)
Definition mounted (s : State) (k : nat) : bool :=
  match mode s with
  | PHOTOGRAPHER => bool_decide (S k = length (dashboards s))
  | _ => false
  end.

(** Instance [i] as the dashboard sees itself: its own hooks, with the
    [photos] and [setPhotos] props standing for the photos of the app. *)
Definition view (s : State) (i : Instance) : Dashboard.State :=
  Dashboard.mkState (eventPhotos s) (processingQueue i) (processingRef i) (inFlight i)
    (timers i) (console s).

(** What a step of instance [k] leaves: the photos and the console are
    those of the app; the ref, the invocations and the timers are its own;
    its queue is React state, which is not updated once the instance is
    out of the tree. *)
Definition store (s : State) (k : nat) (i : Instance) (d : Dashboard.State) : State :=
  mkState (mode s) (Dashboard.photos d)
    (<[k := mkInstance
              (if mounted s k then Dashboard.processingQueue d else processingQueue i)
              (Dashboard.processingRef d) (Dashboard.inFlight d) (Dashboard.timers d)]>
       (dashboards s))
    (Dashboard.console d).

Inductive Event : Type :=
| SetMode (newMode : AppMode)
| OfDashboard (k : nat) (ev : Dashboard.Event).   (* an event of instance k *)

(** Handlers and effects run for the instance in the tree only; a timer
    fires, and an awaited promise settles, whether or not the instance
    that made them is still there. *)
Definition reaches (s : State) (k : nat) (ev : Dashboard.Event) : bool :=
  match ev with
  | Dashboard.Timer | Dashboard.Settle => true
  | Dashboard.Drop _ | Dashboard.Clear | Dashboard.Effect => mounted s k
  end.

Section WithEnvironment.

Variable resizeImage : File → Z → Result string.

Definition step (s : State) (ev : Event) : State :=
  match ev with
  | SetMode newMode => setMode newMode s
  | OfDashboard k dev =>
      match dashboards s !! k with
      | Some i =>
          if reaches s k dev then store s k i (Dashboard.step resizeImage (view s i) dev)
          else s
      | None => s
      end
  end.

Definition exec (s : State) (evs : list Event) : State := foldl step s evs.

End WithEnvironment.

(** The number of invocations of [processNextBatch] that are suspended,
    over all instances. *)
Definition suspended (s : State) : nat :=
  length (concat (inFlight <$> dashboards s)).

(** What the guard of an instance keeps: it has no invocation suspended
    while its ref is down and exactly one while it is up, which holds the
    first three photos that were pending in its snapshot; and while the
    instance is in the tree ([shown]), its queue shows that batch. *)
Definition InstanceShaped (shown : bool) (i : Instance) : Prop :=
  match inFlight i with
  | [] => processingRef i = false
  | [b] =>
      processingRef i = true
      ∧ Dashboard.batch b
          = slice (filter (λ p, processed p = false) (Dashboard.seen_photos b)) 0 3
      ∧ Dashboard.batch b ≠ []
      ∧ (shown = true → processingQueue i = id <$> Dashboard.batch b)
  | _ => False
  end.

Definition Shaped (s : State) : Prop :=
  ∀ k i, dashboards s !! k = Some i → InstanceShaped (mounted s k) i.

End App.

(** ** Concrete environments and inputs *)

Module Fixtures.

Definition photo (name : string) : Photo :=
  mkPhoto name "blob:photo" (mkFile name "jpeg") 0 (Some "b64") true.

(** A photo that the dashboard has not indexed yet. *)
Definition fresh (name : string) : Photo :=
  mkPhoto name "blob:photo" (mkFile name "jpeg") 0 None false.

Definition tenPhotos : list Photo :=
  photo <$> ["p0"; "p1"; "p2"; "p3"; "p4"; "p5"; "p6"; "p7"; "p8"; "p9"].

(** A guest with one reference frame, before any scan. *)
Definition guest : Scan.State :=
  Scan.mkState (set_referenceFrames [Some "front"] initialPortal) (mkWorld [] []) [].

(** [JSON.parse] on the three texts that the services below send. *)
Definition parse (t : string) : Result Json :=
  if String.eqb t "matches 0 2" then Ok (JObject (Some [0; 2]))
  else if String.eqb t "matches 0 0" then Ok (JObject (Some [0; 0]))
  else if String.eqb t "matches" then Ok (JObject (Some []))
  else Throw SyntaxError.

(** Candidates 0 and 2 of the first request match, nothing after. *)
Definition firstChunkMatches (n : nat) (parts : list Part) : Result Response :=
  match n with
  | O => Ok {| text := Some "matches 0 2" |}
  | _ => Ok {| text := Some "matches" |}
  end.

(** The same service, unreachable for the second request. *)
Definition secondCallThrows (n : nat) (parts : list Part) : Result Response :=
  match n with
  | O => Ok {| text := Some "matches 0 2" |}
  | 1%nat => Throw ServiceError
  | _ => Ok {| text := Some "matches" |}
  end.

(** A service that names candidate 0 twice. *)
Definition namesTwice (n : nat) (parts : list Part) : Result Response :=
  Ok {| text := Some "matches 0 0" |}.

(** A normalizer that fails on the file named "corrupt". *)
Definition resize (f : File) (maxWidth : Z) : Result string :=
  if String.eqb (file_name f) "corrupt" then Throw DecodeError
  else Ok ("jpeg:" +:+ file_name f).

(** What the canvas gives at every tick of a capture session. *)
Definition steadyCamera (j : nat) : option string :=
  Some "data:image/jpeg;base64,AAAA".


(** A camera that never gives a frame. *)
Definition deadCamera (j : nat) : option string := None.

(** The capture UI with the camera open on stream 7. *)
Definition cameraOpen : Capture.State :=
  Capture.step Capture.initial (Capture.OpenCamera (Ok 7%nat)).

End Fixtures.

(** ** More concrete inputs *)

Module Samples.
Import Fixtures.

(** The service answers the first request with an index outside the chunk. *)
Definition namesOutside (n : nat) (parts : list Part) : Result Response :=
  Ok {| text := Some "matches 0 9" |}.

Definition parseOutside (t : string) : Result Json :=
  if String.eqb t "matches 0 9" then Ok (JObject (Some [0; 9])) else Throw SyntaxError.

(** A guest before any reference has been captured or uploaded. *)
Definition newcomer : Scan.State :=
  Scan.mkState initialPortal (mkWorld [] []) [].

(** Five photos, the second of which does not decode and none of which
    is indexed. *)
Definition withCorrupt : list Photo :=
  [fresh "a"; fresh "corrupt"; fresh "c"; fresh "d"; fresh "e"].

Definition fourFresh : list Photo :=
  [fresh "a"; fresh "b"; fresh "c"; fresh "d"].

Definition fourUploads : list Dashboard.Upload :=
  [Dashboard.mkUpload "a" "blob:a" (mkFile "a" "jpeg") 1;
   Dashboard.mkUpload "b" "blob:b" (mkFile "b" "jpeg") 2;
   Dashboard.mkUpload "c" "blob:c" (mkFile "c" "jpeg") 3;
   Dashboard.mkUpload "d" "blob:d" (mkFile "d" "jpeg") 4].

(** The photos that [processFiles] makes of them. *)
Definition fourUploaded : list Photo :=
  [mkPhoto "a" "blob:a" (mkFile "a" "jpeg") 1 None false;
   mkPhoto "b" "blob:b" (mkFile "b" "jpeg") 2 None false;
   mkPhoto "c" "blob:c" (mkFile "c" "jpeg") 3 None false;
   mkPhoto "d" "blob:d" (mkFile "d" "jpeg") 4 None false].

(** The photographer enters the dashboard, drops four files, and the effect
    starts the first batch; then Exit Dashboard, and back in, where the
    effect of the new instance runs. *)
Definition reentry : list App.Event :=
  [App.SetMode App.PHOTOGRAPHER;
   App.OfDashboard 0 (Dashboard.Drop fourUploads);
   App.OfDashboard 0 Dashboard.Effect;
   App.SetMode App.LANDING;
   App.SetMode App.PHOTOGRAPHER;
   App.OfDashboard 1 Dashboard.Effect].


End Samples.

(** * Properties *)

(** ** Outcomes of several computations *)

Module ResultFacts.

Lemma sequence_Ok_Forall2 {A B} (f : A → Result B) (xs : list A) (ys : list B) :
  sequence (f <$> xs) = Ok ys → Forall2 (λ x y, f x = Ok y) xs ys.
Proof.
  revert ys. induction xs as [|x xs IH]; intros ys H; csimpl in H.
  - inversion H. constructor.
  - destruct (f x) as [y|e] eqn:Hx; [|discriminate].
    destruct (sequence (f <$> xs)) as [l|e] eqn:Hl; [|discriminate].
    inversion H; subst. constructor; auto.
Qed.

Lemma sequence_fails {A B} (f : A → Result B) (xs : list A) x e :
  x ∈ xs → f x = Throw e → ∃ e', sequence (f <$> xs) = Throw e'.
Proof.
  intros Hx Hf. induction xs as [|y xs IH]; [by apply not_elem_of_nil in Hx|].
  apply elem_of_cons in Hx as [<-|Hx]; csimpl.
  - rewrite Hf. by eexists.
  - destruct (f y); [|by eexists]. destruct (IH Hx) as [e' ->]. by eexists.
Qed.

End ResultFacts.

(** ** The oracle adapter *)

Module GeminiFacts.
Import Gemini.
Section Facts.

Variable generateContent : nat → list Part → Result Response.
Variable JSON_parse : string → Result Json.

Local Abbreviation findFaceMatches :=
  (Gemini.findFaceMatches generateContent JSON_parse).

Lemma findFaceMatches_returns refs cands w :
  ∃ l w', findFaceMatches refs cands w = (Ok l, w').
Proof.
  unfold Gemini.findFaceMatches. destruct (decide _); [by eexists _, _|].
  unfold try_catch, findFaceMatches_try, bind, ai_models_generateContent, lift_result.
  destruct (generateContent _ _) as [resp|e]; [|by eexists _, _].
  destruct (truthy (text resp)); simpl; [|by eexists _, _].
  destruct (JSON_parse _) as [[|m]|e]; simpl; by eexists _, _.
Qed.

Lemma findFaceMatches_empty refs w :
  findFaceMatches refs [] w = (Ok [], w).
Proof. reflexivity. Qed.

Lemma findFaceMatches_calls refs cands w :
  cands ≠ [] →
  apiCalls (snd (findFaceMatches refs cands w)) = apiCalls w ++ [build_parts refs cands].
Proof.
  intros Hne. unfold Gemini.findFaceMatches.
  destruct (decide _) as [H0|_]; [by destruct cands|].
  unfold try_catch, findFaceMatches_try, bind, ai_models_generateContent, lift_result.
  destruct (generateContent _ _) as [resp|e]; [|done].
  destruct (truthy (text resp)); simpl; [|done].
  destruct (JSON_parse _) as [[|m]|e]; simpl; done.
Qed.

Lemma findFaceMatches_failure refs cands w :
  cands ≠ [] →
  InternalFailure generateContent JSON_parse (length (apiCalls w)) (build_parts refs cands) →
  fst (findFaceMatches refs cands w) = Ok [].
Proof.
  intros Hne Hfail. unfold Gemini.findFaceMatches.
  destruct (decide _) as [H0|_]; [by destruct cands|].
  unfold try_catch, findFaceMatches_try, bind, ai_models_generateContent, lift_result.
  destruct Hfail as [e He|r Hr Ht|r t e Hr Ht Hp|r t Hr Ht Hp|r t Hr Ht Hp].
  - by rewrite He.
  - by rewrite Hr, Ht.
  - rewrite Hr, Ht. destruct (truthy (Some t)); [|done]. simpl. by rewrite Hp.
  - rewrite Hr, Ht. destruct (truthy (Some t)); [|done]. simpl. by rewrite Hp.
  - rewrite Hr, Ht. destruct (truthy (Some t)); [|done]. simpl. by rewrite Hp.
Qed.

(** C10: [findFaceMatches] never throws. It always returns a list; for an
    empty candidate list it returns [[]] and leaves the world as it was,
    so the service is not called; and when the service throws or times
    out, or the response text is empty, or the text does not parse, or
    the parsed value is null or has no ["matches"] key, it returns [[]],
    which is also what it returns for "no matches". *)
Theorem findFaceMatches_never_throws refs cands w :
  (∃ l w', findFaceMatches refs cands w = (Ok l, w')) ∧
  findFaceMatches refs [] w = (Ok [], w) ∧
  (cands ≠ [] →
   InternalFailure generateContent JSON_parse
     (length (apiCalls w)) (build_parts refs cands) →
   fst (findFaceMatches refs cands w) = Ok []).
Proof.
  split; [apply findFaceMatches_returns|].
  split; [apply findFaceMatches_empty|].
  apply findFaceMatches_failure.
Qed.

End Facts.

Lemma findFaceMatches_never_throws_witness :
  fst (Gemini.findFaceMatches (λ _ _, Throw ServiceError) (λ _, Throw SyntaxError)
         [Some "r"] [Some "c"] (mkWorld [] [])) = Ok [].
Proof.
  apply (findFaceMatches_never_throws (λ _ _, Throw ServiceError) (λ _, Throw SyntaxError)
           [Some "r"] [Some "c"] (mkWorld [] [])).
  - discriminate.
  - by apply (service_throws _ _ _ _ ServiceError).
Defined.

End GeminiFacts.

(** ** The arithmetic of Numbers *)

Module NumberFacts.

Lemma round_half_even_bounds y :
  Qfloor y ≤ round_half_even y ≤ Qfloor y + 1.
Proof.
  unfold round_half_even.
  destruct (Qcompare _ _); [destruct (Z.even _)| |]; lia.
Qed.

Lemma round_half_even_mono y1 y2 :
  (y1 <= y2)%Q → round_half_even y1 ≤ round_half_even y2.
Proof.
  intros H. pose proof (Qfloor_resp_le _ _ H) as Hf.
  destruct (Z.eq_dec (Qfloor y1) (Qfloor y2)) as [Heq|Hne].
  - unfold round_half_even. rewrite <- Heq.
    destruct (Qcompare_spec (y1 - inject_Z (Qfloor y1)) (1 # 2));
      destruct (Qcompare_spec (y2 - inject_Z (Qfloor y1)) (1 # 2));
      try destruct (Z.even _); try lia; exfalso; lra.
  - pose proof (round_half_even_bounds y1). pose proof (round_half_even_bounds y2). lia.
Qed.

Lemma pow2_pos (z : Z) : (0 < 2 ^ z)%Q.
Proof. by apply Qpower_0_lt. Qed.

Lemma pow2_plus (a b : Z) : (2 ^ (a + b) == 2 ^ a * 2 ^ b)%Q.
Proof. by apply Qpower_plus. Qed.

Lemma pow2_inject (a : Z) : 0 ≤ a → (2 ^ a == inject_Z (2 ^ a))%Q.
Proof. intros Ha. by rewrite (Zpower_Qpower 2 a Ha). Qed.

Lemma pow2_above (n : Z) (d : positive) (p q : Z) :
  0 ≤ p → 0 ≤ q → n * 2 ^ q < 2 ^ p * Z.pos d → (n # d < 2 ^ (p - q))%Q.
Proof.
  intros Hp Hq H.
  rewrite (Qpower_minus 2 p q) by done.
  rewrite (pow2_inject p Hp), (pow2_inject q Hq), (Qmake_Qdiv n d).
  assert (0 < 2 ^ q)%Z as Hq' by (apply Z.pow_pos_nonneg; lia).
  apply Qlt_shift_div_r; [by rewrite <- (Zlt_Qlt 0)|].
  setoid_replace (inject_Z (2 ^ p) / inject_Z (2 ^ q) * inject_Z (Z.pos d))%Q
    with (inject_Z (2 ^ p * Z.pos d) / inject_Z (2 ^ q))%Q using relation Qeq.
  - apply Qlt_shift_div_l; [by rewrite <- (Zlt_Qlt 0)|].
    by rewrite <- inject_Z_mult, <- Zlt_Qlt.
  - rewrite inject_Z_mult. field. intros H0.
    apply (Qlt_not_eq 0 (inject_Z (2 ^ q))); [by rewrite <- (Zlt_Qlt 0)|].
    by symmetry.
Qed.

Lemma pow2_below (n : Z) (d : positive) (p q : Z) :
  0 ≤ p → 0 ≤ q → 2 ^ p * Z.pos d ≤ n * 2 ^ q → (2 ^ (p - q) <= n # d)%Q.
Proof.
  intros Hp Hq H.
  rewrite (Qpower_minus 2 p q) by done.
  rewrite (pow2_inject p Hp), (pow2_inject q Hq), (Qmake_Qdiv n d).
  assert (0 < 2 ^ q)%Z as Hq' by (apply Z.pow_pos_nonneg; lia).
  apply Qle_shift_div_l; [by rewrite <- (Zlt_Qlt 0)|].
  setoid_replace (inject_Z (2 ^ p) / inject_Z (2 ^ q) * inject_Z (Z.pos d))%Q
    with (inject_Z (2 ^ p * Z.pos d) / inject_Z (2 ^ q))%Q using relation Qeq.
  - apply Qle_shift_div_r; [by rewrite <- (Zlt_Qlt 0)|].
    by rewrite <- inject_Z_mult, <- Zle_Qle.
  - rewrite inject_Z_mult. field. intros H0.
    apply (Qlt_not_eq 0 (inject_Z (2 ^ q))); [by rewrite <- (Zlt_Qlt 0)|].
    by symmetry.
Qed.

Lemma exponent_spec (x : Q) :
  (0 < x)%Q → (2 ^ exponent x <= x)%Q ∧ (x < 2 ^ (exponent x + 1))%Q.
Proof.
  intros Hx. destruct x as [n d].
  assert (0 < n) as Hn by (unfold Qlt in Hx; simpl in Hx; lia).
  pose proof (Z.log2_spec n Hn) as [Hn1 Hn2].
  pose proof (Z.log2_spec (Z.pos d) (Pos2Z.is_pos d)) as [Hd1 Hd2].
  pose proof (Z.log2_nonneg n) as Ha. pose proof (Z.log2_nonneg (Z.pos d)) as Hb.
  unfold exponent. simpl Qnum. simpl Qden.
  set (a := Z.log2 n) in *. set (b := Z.log2 (Z.pos d)) in *.
  assert (n # d < 2 ^ (a - b + 1))%Q as Hup.
  { replace (a - b + 1) with ((a + 1) - b) by lia.
    apply pow2_above; [lia|lia|].
    replace (a + 1) with (Z.succ a) by lia. nia. }
  assert (2 ^ (a - b - 1) <= n # d)%Q as Hlow.
  { replace (a - b - 1) with (a - (b + 1)) by lia.
    apply pow2_below; [lia|lia|].
    replace (b + 1) with (Z.succ b) by lia. nia. }
  destruct (Qle_bool (2 ^ (a - b)) (n # d)) eqn:Hle.
  - apply Qle_bool_iff in Hle. by split.
  - split; [done|]. replace (a - b - 1 + 1) with (a - b) by lia.
    apply Qnot_le_lt. intros Hc. apply Qle_bool_iff in Hc. congruence.
Qed.

Lemma exponent_mono (x y : Q) :
  (0 < x)%Q → (x <= y)%Q → exponent x ≤ exponent y.
Proof.
  intros Hx Hxy.
  destruct (exponent_spec x Hx) as [Hx1 _].
  destruct (exponent_spec y) as [_ Hy2]; [lra|].
  apply Z.lt_succ_r. apply (Qpower_lt_compat_l_inv 2); [|done].
  replace (Z.succ (exponent y)) with (exponent y + 1) by lia. lra.
Qed.

Lemma significand_range (x : Q) :
  (0 < x)%Q →
  2 ^ 52 ≤ round_half_even (x * 2 ^ (52 - exponent x)) ≤ 2 ^ 53.
Proof.
  intros Hx. destruct (exponent_spec x Hx) as [H1 H2].
  set (e := exponent x) in *. set (y := (x * 2 ^ (52 - e))%Q).
  pose proof (pow2_pos (52 - e)) as Hs.
  assert (inject_Z (2 ^ 52) <= y)%Q as Hy1.
  { rewrite <- (pow2_inject 52) by lia.
    setoid_replace (2 ^ 52)%Q with (2 ^ e * 2 ^ (52 - e))%Q using relation Qeq.
    - by apply Qmult_le_compat_r; [|apply Qlt_le_weak].
    - rewrite <- pow2_plus. by replace (e + (52 - e)) with 52 by lia. }
  assert (y < inject_Z (2 ^ 53))%Q as Hy2.
  { rewrite <- (pow2_inject 53) by lia.
    setoid_replace (2 ^ 53)%Q with (2 ^ (e + 1) * 2 ^ (52 - e))%Q using relation Qeq.
    - by apply Qmult_lt_compat_r.
    - rewrite <- pow2_plus. by replace (e + 1 + (52 - e)) with 53 by lia. }
  pose proof (round_half_even_bounds y) as [Hb1 Hb2].
  assert (2 ^ 52 ≤ Qfloor y) as Hf1.
  { rewrite <- (Qfloor_Z (2 ^ 52)). by apply Qfloor_resp_le. }
  assert (Qfloor y < 2 ^ 53) as Hf2.
  { rewrite Zlt_Qlt. eapply Qle_lt_trans; [apply Qfloor_le|done]. }
  lia.
Qed.

Lemma nearest_double_range (x : Q) :
  (0 < x)%Q →
  (2 ^ exponent x <= nearest_double x)%Q ∧ (nearest_double x <= 2 ^ (exponent x + 1))%Q.
Proof.
  intros Hx. pose proof (significand_range x Hx) as [H1 H2].
  unfold nearest_double. set (e := exponent x) in *.
  set (m := round_half_even _) in *.
  pose proof (pow2_pos (e - 52)) as Hs.
  split.
  - setoid_replace (2 ^ e)%Q with (inject_Z (2 ^ 52) * 2 ^ (e - 52))%Q using relation Qeq.
    + apply Qmult_le_compat_r; [by rewrite <- Zle_Qle|by apply Qlt_le_weak].
    + rewrite <- (pow2_inject 52), <- pow2_plus by lia.
      by replace (52 + (e - 52)) with e by lia.
  - setoid_replace (2 ^ (e + 1))%Q with (inject_Z (2 ^ 53) * 2 ^ (e - 52))%Q using relation Qeq.
    + apply Qmult_le_compat_r; [by rewrite <- Zle_Qle|by apply Qlt_le_weak].
    + rewrite <- (pow2_inject 53), <- pow2_plus by lia.
      by replace (53 + (e - 52)) with (e + 1) by lia.
Qed.

Lemma nearest_double_mono (x y : Q) :
  (0 < x)%Q → (x <= y)%Q → (nearest_double x <= nearest_double y)%Q.
Proof.
  intros Hx Hxy. assert (0 < y)%Q as Hy by lra.
  pose proof (exponent_mono x y Hx Hxy) as He.
  destruct (Z.eq_dec (exponent x) (exponent y)) as [Heq|Hne].
  - unfold nearest_double. rewrite <- Heq.
    apply Qmult_le_compat_r; [|apply Qlt_le_weak, pow2_pos].
    rewrite <- Zle_Qle. apply round_half_even_mono.
    apply Qmult_le_compat_r; [done|apply Qlt_le_weak, pow2_pos].
  - destruct (nearest_double_range x Hx) as [_ H1].
    destruct (nearest_double_range y Hy) as [H2 _].
    assert (2 ^ (exponent x + 1) <= 2 ^ exponent y)%Q as H3.
    { apply Qpower_le_compat_l; [lia|done]. }
    lra.
Qed.

Lemma round64_0 (x : Q) : (x == 0)%Q → round64 x = 0%Q.
Proof. intros H. unfold round64. by rewrite (proj1 (Qeq_alt _ _) H). Qed.

Lemma round64_pos (x : Q) : (0 < x)%Q → round64 x = nearest_double x.
Proof. intros H. unfold round64. by rewrite (proj1 (Qgt_alt _ _) H). Qed.

Lemma round64_mono (x y : Q) :
  (0 <= x)%Q → (x <= y)%Q → (round64 x <= round64 y)%Q.
Proof.
  intros Hx Hxy.
  destruct (Qlt_le_dec 0 x) as [Hpos|Hzero].
  - rewrite !round64_pos by lra. by apply nearest_double_mono.
  - rewrite (round64_0 x) by lra.
    destruct (Qlt_le_dec 0 y) as [Hy|Hy].
    + rewrite round64_pos by done.
      destruct (nearest_double_range y Hy) as [H _].
      pose proof (pow2_pos (exponent y)). lra.
    + rewrite (round64_0 y) by lra. lra.
Qed.

Lemma Math_round_mono (x y : Q) : (x <= y)%Q → Math_round x ≤ Math_round y.
Proof. intros H. apply Qfloor_resp_le. lra. Qed.

Lemma quotient_mono (a b den : Z) :
  0 < den → a ≤ b → (inject_Z a / inject_Z den <= inject_Z b / inject_Z den)%Q.
Proof.
  intros Hden Hab. apply Qmult_le_compat_r; [by rewrite <- Zle_Qle|].
  apply Qlt_le_weak, Qinv_lt_0_compat. by rewrite <- (Zlt_Qlt 0).
Qed.

Lemma quotient_nonneg (a den : Z) :
  0 < den → 0 ≤ a → (0 <= inject_Z a / inject_Z den)%Q.
Proof.
  intros Hden Ha. apply Qle_shift_div_l; [by rewrite <- (Zlt_Qlt 0)|].
  rewrite Qmult_0_l. by rewrite <- (Zle_Qle 0).
Qed.

Lemma Math_round_percent_mono a b den :
  0 < den → 0 ≤ a → a ≤ b → Math_round_percent a den ≤ Math_round_percent b den.
Proof.
  intros Hden Ha Hab. unfold Math_round_percent.
  pose proof (quotient_nonneg a den Hden Ha) as H0.
  pose proof (quotient_mono a b den Hden Hab) as H1.
  pose proof (round64_mono _ _ H0 H1) as H2.
  pose proof (round64_mono _ _ (Qle_refl 0) H0) as H3. rewrite (round64_0 0) in H3 by done.
  apply Math_round_mono, round64_mono; lra.
Qed.

Lemma Math_round_percent_0 den : 0 < den → Math_round_percent 0 den = 0.
Proof.
  intros Hden. unfold Math_round_percent.
  rewrite (round64_0 (inject_Z 0 / inject_Z den)).
  - by rewrite (round64_0 (0 * 100)).
  - unfold Qdiv. apply Qmult_0_l.
Qed.

Lemma Math_round_percent_whole a den :
  0 < den → den ≤ a → 100 ≤ Math_round_percent a den.
Proof.
  intros Hden Ha.
  pose proof (Math_round_percent_mono den a den Hden (Z.lt_le_incl _ _ Hden) Ha) as H.
  etrans; [|exact H]. clear H. unfold Math_round_percent.
  assert (1 <= inject_Z den / inject_Z den)%Q as H1.
  { apply Qle_shift_div_l; [by rewrite <- (Zlt_Qlt 0)|]. lra. }
  pose proof (round64_mono 1 _ ltac:(lra) H1) as H2.
  assert (round64 1 == 1)%Q as E1 by (by vm_compute).
  assert (round64 100 == 100)%Q as E100 by (by vm_compute).
  assert (100 <= round64 (inject_Z den / inject_Z den) * 100)%Q as H3 by lra.
  pose proof (round64_mono 100 _ ltac:(lra) H3) as H4.
  assert (100 <= round64 (round64 (inject_Z den / inject_Z den) * 100))%Q as H5 by lra.
  exact (Math_round_mono 100 _ H5).
Qed.

(** The case that tells the double from the exact quotient: after 92 of
    160 photos the code publishes 57. *)
Lemma Math_round_percent_92_160 :
  Math_round_percent 92 160 = 57 ∧ Math_round (inject_Z 92 / inject_Z 160 * 100) = 58.
Proof. by vm_compute. Qed.

End NumberFacts.

(** ** The scan *)

Module ScanFacts.
Import Scan ResultFacts GeminiFacts NumberFacts.

(** *** Lists, slices and the progress formula *)

Lemma slice_take_next {A} (l : list A) (k n : nat) :
  take (k + n) l = take k l ++ slice l k (k + n).
Proof.
  unfold slice. replace (k + n - k)%nat with n by lia.
  by rewrite take_take_drop.
Qed.

Lemma slice_subseteq_drop {A} (l : list A) (k n : nat) x :
  x ∈ slice l k (k + n) → x ∈ drop k l.
Proof.
  unfold slice. apply subseteq_take.
Qed.

Lemma progressAt_mono j k total :
  (0 < total)%nat → (j ≤ k)%nat → progressAt j total ≤ progressAt k total.
Proof.
  intros Ht Hjk. unfold progressAt.
  apply Z.min_le_compat_l, Math_round_percent_mono; lia.
Qed.

Lemma progressAt_le_100 k total : progressAt k total ≤ 100.
Proof. unfold progressAt. lia. Qed.

Lemma progressAt_0 total : (0 < total)%nat → progressAt 0 total = 0.
Proof.
  intros Ht. unfold progressAt.
  change (Z.of_nat 0) with 0. rewrite Math_round_percent_0 by lia. done.
Qed.

Lemma progressAt_end k total :
  (0 < total)%nat → (total ≤ k)%nat → progressAt k total = 100.
Proof.
  intros Ht Hk. unfold progressAt.
  apply Z.min_l, Math_round_percent_whole; lia.
Qed.

Lemma sorted_snoc (l : list Z) (v : Z) :
  StronglySorted Z.le l → Forall (λ x, x ≤ v) l → StronglySorted Z.le (l ++ [v]).
Proof.
  induction 1 as [|x l Hl IH Hx]; intros Hv; simpl.
  - repeat constructor.
  - inversion Hv; subst. constructor; [auto|].
    apply Forall_app; split; [done|]. by constructor.
Qed.

(** *** One resumption of the suspended invocation *)

Section Facts.

Variable generateContent : nat → list Part → Result Response.
Variable JSON_parse : string → Result Json.
Variable resizeImage : File → Z → Result string.

Local Abbreviation findFaceMatches :=
  (Gemini.findFaceMatches generateContent JSON_parse).
Local Abbreviation candidateBase64 := (Scan.candidateBase64 resizeImage).
Local Abbreviation resumeScan :=
  (Scan.resumeScan generateContent JSON_parse resizeImage).
Local Abbreviation step := (Scan.step generateContent JSON_parse resizeImage).
Local Abbreviation exec := (Scan.exec generateContent JSON_parse resizeImage).
Local Abbreviation runScan := (Scan.runScan generateContent JSON_parse resizeImage).

Lemma resumeScan_normalization_fails r s e :
  Promise_all (candidateBase64 <$> chunkOf r) = Throw e →
  resumeScan r s = (Ok None, failed s (world s)).
Proof.
  intros Hn. unfold Scan.resumeScan, attempt, scanIteration, bind, lift_result.
  fold (chunkOf r). rewrite Hn. reflexivity.
Qed.

Lemma resumeScan_index_fails r s bs idxs w e :
  Promise_all (candidateBase64 <$> chunkOf r) = Ok bs →
  findFaceMatches (run_referenceFrames r) (Some <$> bs) (world s) = (Ok idxs, w) →
  map_throwing (chunk_id (chunkOf r)) idxs = Throw e →
  resumeScan r s = (Ok None, failed s w).
Proof.
  intros Hn Hf Hm. unfold Scan.resumeScan, attempt, scanIteration, bind, lift_result, zoom.
  fold (chunkOf r). rewrite Hn, Hf, Hm. reflexivity.
Qed.

Lemma resumeScan_ok r s bs idxs w ids :
  Promise_all (candidateBase64 <$> chunkOf r) = Ok bs →
  findFaceMatches (run_referenceFrames r) (Some <$> bs) (world s) = (Ok idxs, w) →
  map_throwing (chunk_id (chunkOf r)) idxs = Ok ids →
  resumeScan r s = loopHead (nextRun r ids) (advanced r s w ids).
Proof.
  intros Hn Hf Hm. unfold nextRun, advanced. unfold Scan.resumeScan, attempt, scanIteration, bind, lift_result, zoom.
  fold (chunkOf r). rewrite Hn, Hf, Hm. reflexivity.
Qed.

Lemma loopHead_continue r s :
  (i r < length (photosToScan r))%nat → loopHead r s = (Ok (Some r), s).
Proof. intros H. unfold loopHead. by rewrite decide_True. Qed.

Lemma loopHead_leave r s :
  (length (photosToScan r) ≤ i r)%nat →
  loopHead r s = (Ok None, finished s).
Proof. intros H. unfold loopHead. rewrite decide_False by lia. reflexivity. Qed.

Lemma chunk_id_elem chunk idx x :
  chunk_id chunk idx = Ok x → ∃ p, chunk !! Z.to_nat idx = Some p ∧ id p = x ∧ 0 ≤ idx.
Proof.
  unfold chunk_id. destruct (0 <=? idx) eqn:Hle; [|discriminate].
  destruct (chunk !! Z.to_nat idx) as [p|] eqn:Hp; [|discriminate].
  intros [= <-]. exists p. repeat split; auto. lia.
Qed.

Lemma map_throwing_elems chunk idxs ids :
  map_throwing (chunk_id chunk) idxs = Ok ids → ids ⊆ id <$> chunk.
Proof.
  intros H%sequence_Ok_Forall2 x Hx.
  apply list_elem_of_lookup in Hx as [k Hk].
  destruct (Forall2_lookup_r _ _ _ _ _ H Hk) as (idx & _ & Hidx).
  apply chunk_id_elem in Hidx as (p & Hp & <- & _).
  apply list_elem_of_fmap. exists p. split; [done|].
  by eapply list_elem_of_lookup_2.
Qed.

Lemma map_throwing_NoDup chunk idxs ids :
  NoDup (id <$> chunk) → NoDup idxs →
  map_throwing (chunk_id chunk) idxs = Ok ids → NoDup ids.
Proof.
  intros Hchunk Hidxs H%sequence_Ok_Forall2.
  induction H as [|idx x idxs ids Hx Hrest IH]; [constructor|].
  apply NoDup_cons in Hidxs as [Hnotin Hidxs].
  constructor; [|by apply IH].
  intros Hin. apply Hnotin.
  apply list_elem_of_lookup in Hin as [k Hk].
  destruct (Forall2_lookup_r _ _ _ _ _ Hrest Hk) as (idx' & Hidx' & Hy).
  apply chunk_id_elem in Hx as (p & Hp & Hxp & H0).
  apply chunk_id_elem in Hy as (q & Hq & Hxq & H0').
  assert (Z.to_nat idx = Z.to_nat idx') as Heq.
  { eapply NoDup_lookup; [exact Hchunk| |].
    - rewrite list_lookup_fmap, Hp. simpl. by rewrite Hxp.
    - rewrite list_lookup_fmap, Hq. simpl. by rewrite Hxq. }
  assert (idx = idx') as -> by lia.
  by eapply list_elem_of_lookup_2.
Qed.

Lemma step_Resume_idle c : pending c = None → step c Resume = c.
Proof. intros H. unfold Scan.step. by rewrite H. Qed.

Lemma step_Resume_cases c r :
  pending c = Some r →
  (∃ w, step c Resume = mkClient (failed (state c) w) None)
  ∨ (∃ bs idxs ids w,
       Promise_all (candidateBase64 <$> chunkOf r) = Ok bs ∧
       findFaceMatches (run_referenceFrames r) (Some <$> bs) (world (state c))
         = (Ok idxs, w) ∧
       map_throwing (chunk_id (chunkOf r)) idxs = Ok ids ∧
       (((i r + BATCH_SIZE < length (photosToScan r))%nat ∧
         step c Resume = mkClient (advanced r (state c) w ids) (Some (nextRun r ids)))
        ∨ ((length (photosToScan r) ≤ i r + BATCH_SIZE)%nat ∧
           step c Resume = mkClient (finished (advanced r (state c) w ids)) None))).
Proof.
  intros Hp. unfold Scan.step. rewrite Hp.
  destruct (Promise_all (candidateBase64 <$> chunkOf r)) as [bs|e] eqn:Hn.
  2:{ left. exists (world (state c)).
      by rewrite (resumeScan_normalization_fails _ _ _ Hn). }
  destruct (findFaceMatches_returns generateContent JSON_parse
              (run_referenceFrames r) (Some <$> bs) (world (state c)))
    as (idxs & w & Hf).
  destruct (map_throwing (chunk_id (chunkOf r)) idxs) as [ids|e] eqn:Hm.
  2:{ left. exists w. by rewrite (resumeScan_index_fails _ _ _ _ _ _ Hn Hf Hm). }
  right. exists bs, idxs, ids, w. repeat split; try done.
  rewrite (resumeScan_ok _ _ _ _ _ _ Hn Hf Hm).
  destruct (decide (i r + BATCH_SIZE < length (photosToScan r))%nat) as [Hlt|Hge].
  - left. split; [done|]. by rewrite loopHead_continue.
  - right. split; [lia|]. rewrite loopHead_leave; [done|simpl; lia].
Qed.


(** *** The click *)

Lemma click_startScan_no_op photos s :
  referenceFrames (ui s) = [] ∨ photos = [] →
  Scan.click_startScan photos s = mkClient s None.
Proof.
  intros H. unfold Scan.click_startScan, startScan, bind, gets.
  rewrite decide_True; [done|].
  destruct H as [-> | ->]; auto.
Qed.

Lemma click_startScan_starts photos s :
  referenceFrames (ui s) ≠ [] → photos ≠ [] →
  Scan.click_startScan photos s
    = mkClient (started s) (Some (mkRun (referenceFrames (ui s)) photos 0 [])).
Proof.
  intros Hr Hp. unfold Scan.click_startScan, startScan, bind, gets.
  rewrite decide_False.
  2:{ intros [H|H]; [by destruct (referenceFrames (ui s))|by destruct photos]. }
  simpl. unfold loopHead. simpl.
  rewrite decide_True; [done|]. destruct photos; [done|simpl; lia].
Qed.

(** *** Invariants of a scan *)

Lemma Consistent_click photos s :
  referenceFrames (ui s) ≠ [] → photos ≠ [] →
  Consistent photos (Scan.click_startScan photos s).
Proof.
  intros Hr Hp. rewrite click_startScan_starts by done. split.
  - intros r [= <-]. simpl. split; [done|]. destruct photos; [done|simpl; lia].
  - simpl. apply list_subseteq_nil.
Qed.

Lemma take_ids_subseteq (photos : list Photo) k : id <$> take k photos ⊆ id <$> photos.
Proof. intros x (p & -> & Hp)%list_elem_of_fmap. apply list_elem_of_fmap_2. by eapply subseteq_take. Qed.

Lemma Consistent_step photos c ev :
  Consistent photos c → Consistent photos (step c ev).
Proof.
  intros [Hpend Hsub]. destruct ev as [|photoId].
  - destruct (pending c) as [r|] eqn:Hp.
    2:{ rewrite step_Resume_idle by done. split; [by rewrite Hp|done]. }
    destruct (Hpend r eq_refl) as [Hphotos Hi].
    unfold cursor in Hsub. rewrite Hp in Hsub.
    destruct (step_Resume_cases c r Hp)
      as [[w ->] | (bs & idxs & ids & w & Hn & Hf & Hm & [[Hlt ->] | [Hge ->]])].
    + split; [done|]. unfold cursor. simpl. etrans; [exact Hsub|].
      rewrite firstn_all. apply take_ids_subseteq.
    + assert (ids ⊆ id <$> chunkOf r) as Hids by by eapply map_throwing_elems.
      split.
      * intros r' [= <-]. simpl. rewrite Hphotos in Hlt |- *. done.
      * unfold cursor. simpl. rewrite slice_take_next, fmap_app.
        unfold chunkOf in Hids. rewrite Hphotos in Hids.
        intros x [Hx|Hx]%elem_of_app; apply elem_of_app; [left|right]; auto.
    + assert (ids ⊆ id <$> chunkOf r) as Hids by by eapply map_throwing_elems.
      split; [done|]. unfold cursor. simpl. rewrite firstn_all.
      intros x [Hx|Hx]%elem_of_app.
      * eapply take_ids_subseteq; eauto.
      * apply Hids in Hx. unfold chunkOf, slice in Hx. rewrite Hphotos in Hx.
        apply list_elem_of_fmap in Hx as (p & -> & Hx).
        apply list_elem_of_fmap_2.
        eapply (subseteq_drop (i r) photos), subseteq_take, Hx.
  - split; [exact Hpend|]. simpl.
    intros x Hx. apply Hsub. by apply list_elem_of_filter in Hx as [_ Hx].
Qed.

Lemma Consistent_exec photos c evs :
  Consistent photos c → Consistent photos (exec c evs).
Proof.
  revert c. induction evs as [|ev evs IH]; intros c Hc; [done|].
  simpl. apply IH. by apply Consistent_step.
Qed.


Lemma Monotone_click photos s :
  referenceFrames (ui s) ≠ [] → photos ≠ [] →
  Monotone (published s) photos (Scan.click_startScan photos s).
Proof.
  intros Hr Hp. rewrite click_startScan_starts by done.
  exists [0]. simpl. repeat split.
  - repeat constructor.
  - unfold cursor. simpl. rewrite progressAt_0; [by repeat constructor|].
    destruct photos; [done|simpl; lia].
  - discriminate.
Qed.

Lemma Monotone_step base photos c ev :
  photos ≠ [] → Consistent photos c →
  Monotone base photos c → Monotone base photos (step c ev).
Proof.
  intros Hne [Hpend _] (vs & Hpub & Hsorted & Hbound & Hlast).
  assert (0 < length photos)%nat as Hlen by (destruct photos; [done|simpl; lia]).
  assert (Forall (λ v, v ≤ 100) vs) as H100.
  { eapply Forall_impl; [exact Hbound|]. intros v Hv. simpl in Hv.
    etrans; [exact Hv|]. apply progressAt_le_100. }
  destruct ev as [|photoId]; [|by exists vs].
  destruct (pending c) as [r|] eqn:Hp.
  2:{ rewrite step_Resume_idle by done. exists vs. by rewrite Hp. }
  destruct (Hpend r eq_refl) as [Hphotos Hi].
  unfold cursor in Hbound. rewrite Hp in Hbound.
  destruct (step_Resume_cases c r Hp)
    as [[w ->] | (bs & idxs & ids & w & Hn & Hf & Hm & [[Hlt ->] | [Hge ->]])].
  - exists (vs ++ [100]). unfold cursor. simpl. repeat split.
    + by rewrite Hpub, app_assoc.
    + by apply sorted_snoc.
    + rewrite progressAt_end by lia. apply Forall_app. split; [done|by repeat constructor].
    + intros _. apply last_snoc.
  - exists (vs ++ [progressAt (i r + BATCH_SIZE) (length photos)]).
    assert (Forall (λ v, v ≤ progressAt (i r + BATCH_SIZE) (length photos)) vs) as Hnew.
    { eapply Forall_impl; [exact Hbound|]. intros v Hv. simpl in Hv.
      etrans; [exact Hv|]. apply progressAt_mono; lia. }
    unfold cursor. simpl. rewrite Hphotos. repeat split.
    + by rewrite Hpub, app_assoc.
    + by apply sorted_snoc.
    + apply Forall_app. split; [done|by repeat constructor].
    + discriminate.
  - exists ((vs ++ [progressAt (i r + BATCH_SIZE) (length photos)]) ++ [100]).
    assert (Forall (λ v, v ≤ progressAt (i r + BATCH_SIZE) (length photos)) vs) as Hnew.
    { eapply Forall_impl; [exact Hbound|]. intros v Hv. simpl in Hv.
      etrans; [exact Hv|]. apply progressAt_mono; lia. }
    unfold cursor. simpl. rewrite Hphotos. repeat split.
    + by rewrite Hpub, !app_assoc.
    + apply sorted_snoc; [by apply sorted_snoc|].
      apply Forall_app. split; [done|]. repeat constructor. apply progressAt_le_100.
    + rewrite progressAt_end by lia.
      apply Forall_app. split; [|by repeat constructor].
      apply Forall_app. split; [done|]. repeat constructor. apply progressAt_le_100.
    + intros _. apply last_snoc.
Qed.

Lemma Monotone_exec base photos c evs :
  photos ≠ [] → Consistent photos c →
  Monotone base photos c → Monotone base photos (exec c evs).
Proof.
  intros Hne. revert c. induction evs as [|ev evs IH]; intros c Hc Hm; [done|].
  simpl. apply IH; [by apply Consistent_step|by apply Monotone_step].
Qed.

Lemma exec_cons c ev evs : exec c (ev :: evs) = exec (step c ev) evs.
Proof. reflexivity. Qed.

Lemma exec_idle k c : pending c = None → exec c (replicate k Resume) = c.
Proof.
  intros Hp. induction k as [|k IH]; [done|].
  change (replicate (S k) Resume) with (Resume :: replicate k Resume).
  by rewrite exec_cons, step_Resume_idle.
Qed.

(** Every resumption moves the cursor on, so a scan left alone ends. *)
Lemma exec_Resume_advances photos k c :
  Consistent photos c →
  pending (exec c (replicate k Resume)) = None
  ∨ ∃ r, pending (exec c (replicate k Resume)) = Some r ∧ (cursor photos c + k ≤ i r)%nat.
Proof.
  revert c. induction k as [|k IH]; intros c Hc.
  - simpl. destruct (pending c) as [r|] eqn:Hp; [|by left].
    right. exists r. unfold cursor. rewrite Hp. split; [done|lia].
  - destruct (pending c) as [r|] eqn:Hp.
    2:{ left. by rewrite exec_idle. }
    change (replicate (S k) Resume) with (Resume :: replicate k Resume).
    rewrite exec_cons.
    pose proof (Consistent_step photos c Resume Hc) as Hc'.
    destruct (IH _ Hc') as [H|(r' & Hr' & Hle)]; [by left|].
    right. exists r'. split; [done|].
    assert (cursor photos c + 1 ≤ cursor photos (step c Resume))%nat; [|lia].
    unfold cursor at 1. rewrite Hp.
    destruct Hc as [Hpend _]. destruct (Hpend r Hp) as [Hphotos Hi].
    destruct (step_Resume_cases c r Hp)
      as [[w ->] | (bs & idxs & ids & w & Hn & Hf & Hm & [[Hlt ->] | [Hge ->]])];
      unfold cursor; simpl; unfold BATCH_SIZE in *; lia.
Qed.

Lemma runScan_finishes photos s : pending (runScan photos s) = None.
Proof.
  unfold Scan.runScan.
  destruct (decide (referenceFrames (ui s) = [] ∨ photos = [])) as [Hno|Hyes].
  - rewrite click_startScan_no_op by done. by rewrite exec_idle.
  - assert (referenceFrames (ui s) ≠ [] ∧ photos ≠ []) as [Hr Hp].
    { split; intros H; apply Hyes; auto. }
    pose proof (Consistent_click photos s Hr Hp) as Hc.
    destruct (exec_Resume_advances photos (length photos) _ Hc) as [H|(r & Hr' & Hle)];
      [done|].
    pose proof (Consistent_exec photos _ (replicate (length photos) Resume) Hc)
      as [Hpend _].
    destruct (Hpend r Hr') as [_ Hi]. lia.
Qed.

(** C6: in every scan over a non-empty candidate set, whatever the
    service, the normalizer and the user do, the values handed to
    [setScanProgress] since the click never decrease, and once the
    invocation has ended the last of them is 100; a scan that is left
    alone does end, so the values it publishes never decrease and the
    last one is exactly 100. *)
Theorem scan_progress_monotone photos s :
  referenceFrames (ui s) ≠ [] → photos ≠ [] →
  (∀ evs, ∃ vs,
     published (state (exec (Scan.click_startScan photos s) evs)) = published s ++ vs ∧
     StronglySorted Z.le vs ∧
     (pending (exec (Scan.click_startScan photos s) evs) = None → last vs = Some 100)) ∧
  (∃ vs,
     published (state (runScan photos s)) = published s ++ vs ∧
     StronglySorted Z.le vs ∧
     last vs = Some 100).
Proof.
  intros Hr Hp.
  assert (∀ evs, Monotone (published s) photos (exec (Scan.click_startScan photos s) evs))
    as Hall.
  { intros evs. apply Monotone_exec; [done|by apply Consistent_click|by apply Monotone_click]. }
  split.
  - intros evs. destruct (Hall evs) as (vs & Hpub & Hs & _ & Hl). by exists vs.
  - destruct (Hall (replicate (length photos) Resume)) as (vs & Hpub & Hs & _ & Hl).
    exists vs. repeat split; [done..|]. apply Hl, runScan_finishes.
Qed.


(** *** Matched ids *)

Lemma chunk_ids_NoDup (photos : list Photo) j n :
  NoDup (id <$> photos) → NoDup (id <$> slice photos j (j + n)).
Proof.
  intros H. unfold slice. rewrite fmap_take, fmap_drop.
  eapply sublist_NoDup; [exact H|].
  etrans; [apply sublist_take|apply sublist_drop].
Qed.

Lemma before_after_disjoint (photos : list Photo) j x :
  NoDup (id <$> photos) →
  x ∈ id <$> take j photos → x ∉ id <$> drop j photos.
Proof.
  intros H Hx. rewrite <- (take_drop j photos), fmap_app in H.
  apply NoDup_app in H as (_ & Hdisj & _). by apply Hdisj.
Qed.

Lemma chunk_ids_after (photos : list Photo) j n x :
  x ∈ id <$> slice photos j (j + n) → x ∈ id <$> drop j photos.
Proof.
  intros (p & -> & Hp)%list_elem_of_fmap. apply list_elem_of_fmap_2.
  by eapply slice_subseteq_drop.
Qed.

Lemma NoDup_step photos c ev :
  NoDup (id <$> photos) →
  oracleNeverRepeats generateContent JSON_parse →
  Consistent photos c →
  NoDup (matchedPhotoIds (ui (state c))) →
  NoDup (matchedPhotoIds (ui (state (step c ev)))).
Proof.
  intros Hids Horacle [Hpend Hsub] Hnd. destruct ev as [|photoId].
  2:{ simpl. by apply NoDup_filter. }
  destruct (pending c) as [r|] eqn:Hp.
  2:{ by rewrite step_Resume_idle. }
  destruct (Hpend r eq_refl) as [Hphotos Hi].
  unfold cursor in Hsub. rewrite Hp in Hsub.
  assert (∀ bs idxs ids w,
    findFaceMatches (run_referenceFrames r) (Some <$> bs) (world (state c)) = (Ok idxs, w) →
    map_throwing (chunk_id (chunkOf r)) idxs = Ok ids →
    NoDup (matchedPhotoIds (ui (state c)) ++ ids)) as Hadd.
  { intros bs idxs ids w Hf Hm. apply NoDup_app. repeat split; [done| |].
    - intros x Hx Hx'. apply Hsub in Hx.
      apply (map_throwing_elems _ _ _ Hm) in Hx'.
      unfold chunkOf in Hx'. rewrite Hphotos in Hx'.
      eapply before_after_disjoint; [exact Hids|exact Hx|].
      by eapply chunk_ids_after.
    - eapply map_throwing_NoDup; [| |exact Hm].
      + unfold chunkOf. rewrite Hphotos. by apply chunk_ids_NoDup.
      + eapply Horacle. by rewrite Hf. }
  destruct (step_Resume_cases c r Hp)
    as [[w ->] | (bs & idxs & ids & w & Hn & Hf & Hm & [[Hlt ->] | [Hge ->]])];
    simpl; eauto.
Qed.

(** An id that has been deselected after its chunk was processed: it is
    not among the matches, and it belongs to a candidate before the
    cursor. *)
Lemma Gone_step photos x c ev :
  NoDup (id <$> photos) → Consistent photos c →
  x ∉ matchedPhotoIds (ui (state c)) → x ∈ id <$> take (cursor photos c) photos →
  (x ∉ matchedPhotoIds (ui (state (step c ev))))
  ∧ (x ∈ id <$> take (cursor photos (step c ev)) photos).
Proof.
  intros Hids [Hpend Hsub] Hnot Hbefore. destruct ev as [|photoId].
  2:{ simpl. split; [|done]. intros Hx. apply Hnot.
      by apply list_elem_of_filter in Hx as [_ Hx]. }
  destruct (pending c) as [r|] eqn:Hp.
  2:{ by rewrite step_Resume_idle. }
  destruct (Hpend r eq_refl) as [Hphotos Hi].
  unfold cursor in Hbefore. rewrite Hp in Hbefore.
  assert (∀ idxs ids,
    map_throwing (chunk_id (chunkOf r)) idxs = Ok ids →
    x ∉ matchedPhotoIds (ui (state c)) ++ ids) as Hadd.
  { intros idxs ids Hm [Hx|Hx]%elem_of_app; [done|].
    apply (map_throwing_elems _ _ _ Hm) in Hx.
    unfold chunkOf in Hx. rewrite Hphotos in Hx.
    eapply before_after_disjoint; [exact Hids|exact Hbefore|].
    by eapply chunk_ids_after. }
  destruct (step_Resume_cases c r Hp)
    as [[w ->] | (bs & idxs & ids & w & Hn & Hf & Hm & [[Hlt ->] | [Hge ->]])];
    unfold cursor; simpl.
  - split; [done|]. rewrite firstn_all. by eapply take_ids_subseteq.
  - split; [by eapply Hadd|].
    rewrite slice_take_next, fmap_app. apply elem_of_app. by left.
  - split; [by eapply Hadd|]. rewrite firstn_all. by eapply take_ids_subseteq.
Qed.

Lemma Gone_exec photos x c evs :
  NoDup (id <$> photos) → Consistent photos c →
  x ∉ matchedPhotoIds (ui (state c)) → x ∈ id <$> take (cursor photos c) photos →
  x ∉ matchedPhotoIds (ui (state (exec c evs))).
Proof.
  intros Hids. revert c. induction evs as [|ev evs IH]; intros c Hc Hnot Hbefore; [done|].
  rewrite exec_cons.
  destruct (Gone_step photos x c ev Hids Hc Hnot Hbefore) as [Hnot' Hbefore'].
  apply IH; [by apply Consistent_step|done..].
Qed.

Lemma NoDup_exec photos c evs :
  NoDup (id <$> photos) →
  oracleNeverRepeats generateContent JSON_parse →
  Consistent photos c →
  NoDup (matchedPhotoIds (ui (state c))) →
  NoDup (matchedPhotoIds (ui (state (exec c evs)))).
Proof.
  intros Hids Ho. revert c. induction evs as [|ev evs IH]; intros c Hc Hnd; [done|].
  rewrite exec_cons. apply IH; [by apply Consistent_step|by apply (NoDup_step photos)].
Qed.

(** C7, amended: at every point of a scan, and so at the end of a
    successful one, the matched ids are ids of the candidates given to
    the scan; they are free of duplicates when the candidates have
    distinct ids and no answer of the oracle names a candidate twice. *)
Theorem scan_matches_subset photos s evs :
  referenceFrames (ui s) ≠ [] → photos ≠ [] →
  (matchedPhotoIds (ui (state (exec (Scan.click_startScan photos s) evs))) ⊆ id <$> photos)
  ∧ (NoDup (id <$> photos) →
     oracleNeverRepeats generateContent JSON_parse →
     NoDup (matchedPhotoIds (ui (state (exec (Scan.click_startScan photos s) evs))))).
Proof.
  intros Hr Hp. pose proof (Consistent_click photos s Hr Hp) as Hc. split.
  - destruct (Consistent_exec photos _ evs Hc) as [_ Hsub].
    etrans; [exact Hsub|apply take_ids_subseteq].
  - intros Hids Ho. apply (NoDup_exec photos); [done..|].
    rewrite click_startScan_starts by done. simpl. constructor.
Qed.

(** C9: during a scan of candidates with distinct ids, deselecting a
    displayed match removes it from the matched ids, and nothing that
    happens later in that scan (further chunks, further deselections)
    brings it back; the deselection changes the matched ids and nothing
    else: not the suspended invocation, the progress, the flags, the
    error or the world. *)
Theorem deselected_never_returns photos s before x :
  referenceFrames (ui s) ≠ [] → photos ≠ [] →
  NoDup (id <$> photos) →
  x ∈ matchedPhotoIds (ui (state (exec (Scan.click_startScan photos s) before))) →
  let c := exec (Scan.click_startScan photos s) before in
  let d := step c (Deselect x) in
  (x ∉ matchedPhotoIds (ui (state d)))
  ∧ (∀ later, x ∉ matchedPhotoIds (ui (state (exec d later))))
  ∧ pending d = pending c
  ∧ state d =
      mkState
        (set_matchedPhotoIds (filter (λ y, y ≠ x) (matchedPhotoIds (ui (state c))))
           (ui (state c)))
        (world (state c)) (published (state c)).
Proof.
  intros Hr Hp Hids Hx c d.
  assert (Consistent photos c) as Hc.
  { apply (Consistent_exec photos). by apply Consistent_click. }
  assert (x ∉ matchedPhotoIds (ui (state d))) as Hnot.
  { simpl. intros H. by apply list_elem_of_filter in H as [H _]. }
  split; [done|]. split; [|by split].
  intros later. apply (Gone_exec photos); [done| |done|].
  - by apply Consistent_step.
  - destruct Hc as [_ Hsub]. by apply Hsub.
Qed.


(** *** A scan of ten candidates *)

Local Arguments Gemini.findFaceMatches : simpl never.
Local Arguments Scan.exec : simpl never.
Local Arguments Scan.step : simpl never.
Local Arguments replicate : simpl never.

Lemma step_Resume_advance c r bs idxs ids :
  pending c = Some r →
  Promise_all (candidateBase64 <$> chunkOf r) = Ok bs →
  fst (findFaceMatches (run_referenceFrames r) (Some <$> bs) (world (state c))) = Ok idxs →
  map_throwing (chunk_id (chunkOf r)) idxs = Ok ids →
  (i r + BATCH_SIZE < length (photosToScan r))%nat →
  step c Resume =
    mkClient
      (advanced r (state c)
         (snd (findFaceMatches (run_referenceFrames r) (Some <$> bs) (world (state c)))) ids)
      (Some (nextRun r ids)).
Proof.
  intros Hp Hn Hf Hm Hlt. unfold Scan.step. rewrite Hp.
  rewrite (resumeScan_ok r (state c) bs idxs
             (snd (findFaceMatches (run_referenceFrames r) (Some <$> bs) (world (state c))))
             ids Hn); [|by rewrite <- Hf; apply surjective_pairing|done].
  by rewrite loopHead_continue.
Qed.

Lemma step_Resume_finish c r bs idxs ids :
  pending c = Some r →
  Promise_all (candidateBase64 <$> chunkOf r) = Ok bs →
  fst (findFaceMatches (run_referenceFrames r) (Some <$> bs) (world (state c))) = Ok idxs →
  map_throwing (chunk_id (chunkOf r)) idxs = Ok ids →
  (length (photosToScan r) ≤ i r + BATCH_SIZE)%nat →
  step c Resume =
    mkClient
      (finished
         (advanced r (state c)
            (snd (findFaceMatches (run_referenceFrames r) (Some <$> bs) (world (state c))))
            ids))
      None.
Proof.
  intros Hp Hn Hf Hm Hge. unfold Scan.step. rewrite Hp.
  rewrite (resumeScan_ok r (state c) bs idxs
             (snd (findFaceMatches (run_referenceFrames r) (Some <$> bs) (world (state c))))
             ids Hn); [|by rewrite <- Hf; apply surjective_pairing|done].
  by rewrite loopHead_leave.
Qed.

(** C5: a scan of 10 candidates, all of which normalize, makes exactly
    three requests, one after the other, for the candidates at positions
    0-3, 4-7 and 8-9 in that order (chunk sizes 4, 4, 2); when the oracle
    returns [0, 2] for the first chunk and nothing for the other two, the
    matched ids are exactly the ids of the candidates at positions 0 and
    2, and the progress values published are 0, then 40, 80, 100, and
    100 again from the [finally] block. *)
Theorem scan_of_ten_candidates photos s bs :
  length photos = 10%nat →
  referenceFrames (ui s) ≠ [] →
  Promise_all (candidateBase64 <$> photos) = Ok bs →
  oracleReturns generateContent JSON_parse (length (apiCalls (world s))) [0; 2] →
  oracleReturns generateContent JSON_parse (S (length (apiCalls (world s)))) [] →
  oracleReturns generateContent JSON_parse (S (S (length (apiCalls (world s))))) [] →
  let c := runScan photos s in
  let refs := referenceFrames (ui s) in
  pending c = None
  ∧ apiCalls (world (state c)) =
      apiCalls (world s) ++
        [Gemini.build_parts refs (Some <$> take 4 bs);
         Gemini.build_parts refs (Some <$> take 4 (drop 4 bs));
         Gemini.build_parts refs (Some <$> drop 8 bs)]
  ∧ length <$> [take 4 bs; take 4 (drop 4 bs); drop 8 bs] = [4; 4; 2]%nat
  ∧ Some <$> matchedPhotoIds (ui (state c)) = [id <$> photos !! 0%nat; id <$> photos !! 2%nat]
  ∧ published (state c) = published s ++ [0; 40; 80; 100; 100]
  ∧ isScanning (ui (state c)) = false
  ∧ error (ui (state c)) = None.
Proof.
  intros Hlen Hrefs Hnorm H1 H2 H3.
  do 11 (try destruct photos as [|? photos]); try discriminate. clear Hlen.
  apply sequence_Ok_Forall2 in Hnorm.
  repeat match goal with
         | H : Forall2 _ (_ :: _) _ |- _ =>
             apply Forall2_cons_inv_l in H as (? & ? & ? & H & ->)
         | H : Forall2 _ [] _ |- _ => apply Forall2_nil_inv_l in H as ->
         end.
  intros c refs. subst c. unfold Scan.runScan.
  rewrite click_startScan_starts by done.
  change (replicate _ Resume) with (Resume :: Resume :: Resume :: replicate 7 Resume).
  (* chunk 1 *)
  rewrite exec_cons.
  erewrite (step_Resume_advance _ _ _ [0; 2]);
    [|reflexivity| | | |simpl; unfold BATCH_SIZE; lia].
  2:{ unfold chunkOf, slice, Promise_all. csimpl. by rewrite H, H0, H4, H5. }
  2:{ by apply H1. }
  2:{ reflexivity. }
  simpl. set (w1 := snd (findFaceMatches _ _ (world s))).
  assert (apiCalls w1 = apiCalls (world s)
            ++ [Gemini.build_parts refs (Some <$> [x; x1; x0; x2])]) as Hw1.
  { subst w1. by rewrite findFaceMatches_calls. }
  (* chunk 2 *)
  rewrite exec_cons.
  erewrite (step_Resume_advance _ _ _ []);
    [|reflexivity| | | |simpl; unfold BATCH_SIZE; lia].
  2:{ unfold chunkOf, slice, Promise_all. csimpl. by rewrite H6, H7, H8, H9. }
  2:{ apply H2; [done|]. simpl. rewrite Hw1, length_app. simpl. lia. }
  2:{ reflexivity. }
  simpl. set (w2 := snd (findFaceMatches _ _ w1)).
  assert (apiCalls w2 = apiCalls w1
            ++ [Gemini.build_parts refs (Some <$> [x3; x4; x5; x6])]) as Hw2.
  { subst w2. by rewrite findFaceMatches_calls. }
  (* chunk 3 *)
  rewrite exec_cons.
  erewrite (step_Resume_finish _ _ _ []);
    [|reflexivity| | | |simpl; unfold BATCH_SIZE; lia].
  2:{ unfold chunkOf, slice, Promise_all. csimpl. by rewrite H10, H11. }
  2:{ apply H3; [done|]. simpl. rewrite Hw2, Hw1, !length_app. simpl. lia. }
  2:{ reflexivity. }
  simpl. set (w3 := snd (findFaceMatches _ _ w2)).
  assert (apiCalls w3 = apiCalls w2
            ++ [Gemini.build_parts refs (Some <$> [x7; x8])]) as Hw3.
  { subst w3. by rewrite findFaceMatches_calls. }
  repeat split.
  - by rewrite Hw3, Hw2, Hw1, <- !app_assoc.
  - by rewrite <- !app_assoc.
Qed.


(** When the request of a chunk fails inside the adapter, the scan goes
    on as if the oracle had found nothing: no error, same matches. *)
Lemma service_failure_is_no_match c r bs :
  pending c = Some r →
  Promise_all (candidateBase64 <$> chunkOf r) = Ok bs →
  chunkOf r ≠ [] →
  Gemini.InternalFailure generateContent JSON_parse
    (length (apiCalls (world (state c))))
    (Gemini.build_parts (run_referenceFrames r) (Some <$> bs)) →
  error (ui (state (step c Resume))) = error (ui (state c))
  ∧ matchedPhotoIds (ui (state (step c Resume))) = matchedPhotoIds (ui (state c)).
Proof.
  intros Hp Hn Hne Hfail.
  assert (Some <$> bs ≠ []) as Hbs.
  { apply sequence_Ok_Forall2 in Hn. destruct Hn; [done|discriminate]. }
  pose proof (findFaceMatches_failure generateContent JSON_parse
                (run_referenceFrames r) (Some <$> bs) (world (state c)) Hbs Hfail) as Hf.
  destruct (decide (i r + BATCH_SIZE < length (photosToScan r))%nat) as [Hlt|Hge].
  - rewrite (step_Resume_advance c r bs [] [] Hp Hn Hf eq_refl Hlt).
    simpl. by rewrite app_nil_r.
  - rewrite (step_Resume_finish c r bs [] [] Hp Hn Hf eq_refl); [|lia].
    simpl. by rewrite app_nil_r.
Qed.

End Facts.

(** *** Concrete scans *)

Import Fixtures.

Lemma firstChunkMatches_returns_0_2 :
  oracleReturns firstChunkMatches parse 0 [0; 2].
Proof.
  intros refs cands w Hne Hlen. unfold Gemini.findFaceMatches.
  destruct (decide _) as [H0|_]; [by destruct cands|].
  unfold try_catch, Gemini.findFaceMatches_try, bind, Gemini.ai_models_generateContent.
  by rewrite Hlen.
Qed.

Lemma firstChunkMatches_returns_nothing n :
  oracleReturns firstChunkMatches parse (S n) [].
Proof.
  intros refs cands w Hne Hlen. unfold Gemini.findFaceMatches.
  destruct (decide _) as [H0|_]; [by destruct cands|].
  unfold try_catch, Gemini.findFaceMatches_try, bind, Gemini.ai_models_generateContent.
  by rewrite Hlen.
Qed.

Lemma firstChunkMatches_never_repeats : oracleNeverRepeats firstChunkMatches parse.
Proof.
  intros refs cands w indices. unfold Gemini.findFaceMatches.
  destruct (decide _) as [H0|_]; [intros [= <-]; constructor|].
  unfold try_catch, Gemini.findFaceMatches_try, bind, Gemini.ai_models_generateContent.
  destruct (length (apiCalls w)); simpl; intros [= <-].
  - compute_done.
  - constructor.
Qed.

Lemma tenPhotos_distinct : NoDup (id <$> tenPhotos).
Proof. compute_done. Qed.

Lemma scan_of_ten_candidates_witness :
  let c := Scan.runScan firstChunkMatches parse resize tenPhotos guest in
  pending c = None
  ∧ apiCalls (world (state c)) =
      [Gemini.build_parts [Some "front"] (replicate 4 (Some "b64"));
       Gemini.build_parts [Some "front"] (replicate 4 (Some "b64"));
       Gemini.build_parts [Some "front"] (replicate 2 (Some "b64"))]
  ∧ length <$> [replicate 4 "b64"; replicate 4 "b64"; replicate 2 "b64"] = [4; 4; 2]%nat
  ∧ Some <$> matchedPhotoIds (ui (state c)) = [Some "p0"; Some "p2"]
  ∧ published (state c) = [0; 40; 80; 100; 100]
  ∧ isScanning (ui (state c)) = false
  ∧ error (ui (state c)) = None.
Proof.
  apply (scan_of_ten_candidates firstChunkMatches parse resize tenPhotos guest
           (replicate 10 "b64")).
  - reflexivity.
  - discriminate.
  - reflexivity.
  - apply firstChunkMatches_returns_0_2.
  - apply firstChunkMatches_returns_nothing.
  - apply firstChunkMatches_returns_nothing.
Defined.

Lemma scan_progress_monotone_witness :
  (∀ evs, ∃ vs,
     published (state (Scan.exec firstChunkMatches parse resize
                         (Scan.click_startScan tenPhotos guest) evs)) = [] ++ vs ∧
     StronglySorted Z.le vs ∧
     (pending (Scan.exec firstChunkMatches parse resize
                 (Scan.click_startScan tenPhotos guest) evs) = None →
      last vs = Some 100)) ∧
  (∃ vs,
     published (state (Scan.runScan firstChunkMatches parse resize tenPhotos guest))
       = [] ++ vs ∧
     StronglySorted Z.le vs ∧
     last vs = Some 100).
Proof.
  apply (scan_progress_monotone firstChunkMatches parse resize tenPhotos guest);
    discriminate.
Defined.

Lemma scan_matches_subset_witness :
  (matchedPhotoIds (ui (state (Scan.runScan firstChunkMatches parse resize tenPhotos guest)))
     ⊆ id <$> tenPhotos)
  ∧ NoDup (matchedPhotoIds
             (ui (state (Scan.runScan firstChunkMatches parse resize tenPhotos guest)))).
Proof.
  destruct (scan_matches_subset firstChunkMatches parse resize tenPhotos guest
              (replicate 10 Resume)) as [Hsub Hnd]; [discriminate..|].
  split; [exact Hsub|].
  apply Hnd; [apply tenPhotos_distinct|apply firstChunkMatches_never_repeats].
Defined.

(** The claim of C7 as it stands fails: a scan that ends without an error
    can hold the same id twice, here because the oracle names candidate 0
    twice in its answer. *)
Lemma scan_matches_may_repeat :
  let c := Scan.runScan namesTwice parse resize [photo "p0"] guest in
  pending c = None
  ∧ isScanning (ui (state c)) = false
  ∧ error (ui (state c)) = None
  ∧ matchedPhotoIds (ui (state c)) = ["p0"; "p0"]
  ∧ ¬ NoDup (matchedPhotoIds (ui (state c))).
Proof.
  repeat split; try reflexivity.
  intros H. apply NoDup_cons in H as [Hnotin _]. apply Hnotin. by left.
Qed.

Lemma deselected_never_returns_witness :
  let c := Scan.exec firstChunkMatches parse resize
             (Scan.click_startScan tenPhotos guest) [Resume] in
  let d := Scan.step firstChunkMatches parse resize c (Deselect "p2") in
  ("p2" ∉ matchedPhotoIds (ui (state d)))
  ∧ (∀ later, "p2" ∉ matchedPhotoIds
                        (ui (state (Scan.exec firstChunkMatches parse resize d later))))
  ∧ pending d = pending c
  ∧ state d =
      mkState
        (set_matchedPhotoIds (filter (λ y, y ≠ "p2") (matchedPhotoIds (ui (state c))))
           (ui (state c)))
        (world (state c)) (published (state c)).
Proof.
  apply (deselected_never_returns firstChunkMatches parse resize tenPhotos guest
           [Resume] "p2").
  - discriminate.
  - discriminate.
  - apply tenPhotos_distinct.
  - compute_done.
Defined.

(** C1, on the code: the service throws on the request of the second of
    three chunks. The adapter turns the failure into "no matches", so the
    scan does not fail: it sends the third request as well, sets no error,
    and ends in the very state of the user interface in which a scan ends
    whose second request was answered with no matches. The matches of the
    first chunk are there, and the only trace of the failure is a line on
    the console. *)
Theorem scan_swallows_service_failure :
  let c := Scan.runScan secondCallThrows parse resize tenPhotos guest in
  pending c = None
  ∧ length (apiCalls (world (state c))) = 3%nat
  ∧ error (ui (state c)) = None
  ∧ isScanning (ui (state c)) = false
  ∧ matchedPhotoIds (ui (state c)) = ["p0"; "p2"]
  ∧ console (world (state c)) = ["Gemini Face Match Error:"]
  ∧ ui (state c) = ui (state (Scan.runScan firstChunkMatches parse resize tenPhotos guest)).
Proof. by vm_compute. Qed.

End ScanFacts.

(** ** The capture sequence *)

Module CaptureFacts.
Import Capture Fixtures.





Section Session.

Variable s : State.
Variable t0 : Z.
Variable canvas : nat → option string.
Hypothesis Hmounted : mounted s = true.
Hypothesis Hshown : showCamera (ui s) = true.
Hypothesis Hidle : recordingStep (ui s) = IDLE.
Hypothesis Htimers : timers s = [].







(** *** On any clock *)















End Session.



(** Closing the camera modal stops the stream that the state holds. *)
Lemma close_releases_camera s stream :
  mounted s = true → showCamera (ui s) = true → cameraStream (ui s) = Some stream →
  (stream ∉ liveStreams (step s CloseCamera))
  ∧ showCamera (ui (step s CloseCamera)) = false
  ∧ cameraStream (ui (step s CloseCamera)) = None.
Proof.
  intros Hm Hs Hc. unfold step. rewrite Hm, Hs, Hc. simpl.
  unfold stopCamera, stopTracks, on_ui. simpl. rewrite Hm. simpl.
  split; [|done]. rewrite list_elem_of_filter. by intros [? _].
Qed.

(** C4, on the code. Tearing the component down stops no stream at all,
    whatever the state: the cleanup of the mount effect reads the
    [cameraStream] of the first render, which is null; so a camera that is
    open at teardown stays live, while the close button does release it.
    And closing the modal during the second pose does not end the
    sequence: its interval keeps firing, and 13 s later the one frame
    collected before the stop becomes the reference set. *)
Theorem teardown_leaves_camera_live :
  (∀ s, liveStreams (step s Unmount) = liveStreams s)
  ∧ liveStreams (exec initial [OpenCamera (Ok 7%nat); Unmount]) = [7%nat]
  ∧ liveStreams (exec initial [OpenCamera (Ok 7%nat); CloseCamera]) = []
  ∧ (let stopped := step (session 0 steadyCamera 100 cameraOpen) CloseCamera in
     let later := exec stopped (idealTicks 0 steadyCamera 101 260) in
     recordingStep (ui stopped) = IDLE
     ∧ showCamera (ui stopped) = false
     ∧ referenceFrames (ui stopped) = []
     ∧ referenceFrames (ui later) = [Some "AAAA"]).
Proof.
  split; [|by vm_compute].
  intros s. unfold step. by destruct (mounted s).
Qed.

End CaptureFacts.

(** ** The indexing processor *)

Module DashboardFacts.
Import Dashboard ResultFacts Fixtures.

Section Facts.

Variable resizeImage : File → Z → Result string.

Local Abbreviation processNextBatch := (Dashboard.processNextBatch).
Local Abbreviation indexPhoto := (Dashboard.indexPhoto resizeImage).
Local Abbreviation settle := (Dashboard.settle resizeImage).
Local Abbreviation step := (Dashboard.step resizeImage).
Local Abbreviation exec := (Dashboard.exec resizeImage).

Lemma settle_failed b s e :
  Promise_all (indexPhoto <$> batch b) = Throw e →
  photos (settle b s) = photos s
  ∧ console (settle b s) = console s ++ ["Indexing failed for batch"]
  ∧ processingQueue (settle b s) = []
  ∧ processingRef (settle b s) = false.
Proof.
  intros H. unfold Dashboard.settle. rewrite H.
  by destruct (existsb _ _).
Qed.

Lemma settle_indexed b s updates :
  Promise_all (indexPhoto <$> batch b) = Ok updates →
  photos (settle b s) = applyUpdates updates (photos s)
  ∧ console (settle b s) = console s
  ∧ processingQueue (settle b s) = []
  ∧ processingRef (settle b s) = false.
Proof.
  intros H. unfold Dashboard.settle. rewrite H.
  by destruct (existsb _ _).
Qed.

Lemma find_update (updates : list (string * string)) x :
  x ∈ fst <$> updates →
  ∃ u, List.find (λ u, String.eqb (fst u) x) updates = Some u.
Proof.
  induction updates as [|u updates IH]; csimpl; [by intros ?%not_elem_of_nil|].
  intros [->|Hx]%elem_of_cons.
  - rewrite String.eqb_refl. by eexists.
  - destruct (String.eqb (fst u) x); [by eexists|by apply IH].
Qed.

Lemma indexPhoto_ids photos updates :
  Promise_all (indexPhoto <$> photos) = Ok updates → fst <$> updates = id <$> photos.
Proof.
  intros H%sequence_Ok_Forall2.
  induction H as [|p u ps us Hp _ IH]; csimpl; [done|]. f_equal; [|done].
  unfold Dashboard.indexPhoto in Hp. destruct (resizeImage _ _); [|done].
  by injection Hp as <-.
Qed.

Lemma settle_marks_batch b s updates q :
  Promise_all (indexPhoto <$> batch b) = Ok updates →
  q ∈ photos s → id q ∈ id <$> batch b →
  ∃ r, mkPhoto (id q) (url q) (file q) (timestamp q) (Some r) true ∈ photos (settle b s).
Proof.
  intros Hall Hq Hid.
  destruct (settle_indexed b s updates Hall) as (-> & _).
  rewrite <- (indexPhoto_ids _ _ Hall) in Hid.
  destruct (find_update updates (id q) Hid) as [u Hu].
  exists (snd u). unfold applyUpdates. apply list_elem_of_fmap.
  exists q. by rewrite Hu.
Qed.

(** C3, amended: when the normalization of a photo of the batch fails,
    the failure is logged, once and for the batch, and that photo is
    left as it was; but so is every other member of the batch: the photo
    collection does not change at all, the queue shown to the user is
    emptied and the guard released. It takes a batch in which every
    normalization succeeds for its members to be marked as indexed, with
    their representations attached. *)
Theorem failed_batch_marks_nothing b s p e :
  p ∈ batch b → resizeImage (file p) 600 = Throw e →
  photos (settle b s) = photos s
  ∧ console (settle b s) = console s ++ ["Indexing failed for batch"]
  ∧ processingQueue (settle b s) = []
  ∧ processingRef (settle b s) = false
  ∧ (∀ updates, Promise_all (indexPhoto <$> batch b) ≠ Ok updates)
  ∧ (∀ b' s' updates q,
       Promise_all (indexPhoto <$> batch b') = Ok updates →
       q ∈ photos s' → id q ∈ id <$> batch b' →
       ∃ r, mkPhoto (id q) (url q) (file q) (timestamp q) (Some r) true
              ∈ photos (settle b' s')).
Proof.
  intros Hp He.
  destruct (sequence_fails indexPhoto (batch b) p e Hp) as [e' He'].
  { unfold Dashboard.indexPhoto. by rewrite He. }
  destruct (settle_failed b s e' He') as (? & ? & ? & ?).
  repeat split; try done.
  - intros updates. unfold Promise_all in *. by rewrite He'.
  - intros b' s' updates q. apply settle_marks_batch.
Qed.

(** *** The guard *)

Lemma applyUpdates_keeps_representation updates prev :
  Forall indexed_has_representation prev →
  Forall indexed_has_representation (applyUpdates updates prev).
Proof.
  intros H. unfold applyUpdates. apply Forall_fmap.
  eapply Forall_impl; [exact H|]. intros p Hp. simpl.
  destruct (List.find _ updates); [|done]. by intros _.
Qed.

Lemma Guarded_mount photos0 :
  Forall indexed_has_representation photos0 → Guarded (mount photos0).
Proof. intros H. by split. Qed.

Lemma Guarded_processNextBatch seen s :
  Guarded s → Guarded (processNextBatch seen s).
Proof.
  intros Hs. unfold Dashboard.processNextBatch.
  destruct (processingRef s) eqn:Href; [exact Hs|].
  destruct (decide _); [exact Hs|].
  destruct Hs as [Hg Hp]. split; [|done]. simpl.
  destruct (inFlight s) as [|b [|b' rest]]; simpl; [done| |done].
  congruence.
Qed.

Lemma Guarded_settle b rest s :
  Guarded s → inFlight s = b :: rest →
  Guarded (settle b (set_inFlight rest s)) ∧ inFlight (settle b (set_inFlight rest s)) = [].
Proof.
  intros [Hg Hp] Hin. rewrite Hin in Hg.
  destruct rest as [|b' rest]; [|done].
  unfold Dashboard.settle.
  destruct (Promise_all _) as [updates|e];
    destruct (existsb _ _); simpl; repeat split; try done;
    by apply applyUpdates_keeps_representation.
Qed.

Lemma Guarded_step s ev : Guarded s → Guarded (step s ev).
Proof.
  intros Hs. destruct ev; simpl.
  - destruct Hs as [Hg Hp]. split; [done|]. simpl.
    apply Forall_app. split; [done|]. apply Forall_fmap, Forall_true.
    intros f. by intros [=].
  - destruct Hs as [Hg Hp]. split; [done|]. by constructor.
  - by apply Guarded_processNextBatch.
  - destruct (timers s) as [|seen rest] eqn:Ht; [done|].
    apply Guarded_processNextBatch. by destruct Hs.
  - destruct (inFlight s) as [|b rest] eqn:Hin; [done|].
    by apply Guarded_settle.
Qed.

Lemma Guarded_exec s evs : Guarded s → Guarded (exec s evs).
Proof.
  revert s. induction evs as [|ev evs IH]; intros s Hs; [done|].
  simpl. by apply IH, Guarded_step.
Qed.

End Facts.

Lemma failed_batch_marks_nothing_witness :
  let b := mkBatch [fresh "a"; fresh "corrupt"; fresh "c"] [] in
  let s := mount [fresh "a"; fresh "corrupt"; fresh "c"] in
  photos (Dashboard.settle resize b s) = photos s
  ∧ console (Dashboard.settle resize b s) = ["Indexing failed for batch"]
  ∧ processingQueue (Dashboard.settle resize b s) = []
  ∧ processingRef (Dashboard.settle resize b s) = false
  ∧ (∀ updates, Promise_all (Dashboard.indexPhoto resize <$> batch b) ≠ Ok updates)
  ∧ (∀ b' s' updates q,
       Promise_all (Dashboard.indexPhoto resize <$> batch b') = Ok updates →
       q ∈ photos s' → id q ∈ id <$> batch b' →
       ∃ r, mkPhoto (id q) (url q) (file q) (timestamp q) (Some r) true
              ∈ photos (Dashboard.settle resize b' s')).
Proof.
  apply (failed_batch_marks_nothing resize
           (mkBatch [fresh "a"; fresh "corrupt"; fresh "c"] [])
           (mount [fresh "a"; fresh "corrupt"; fresh "c"])
           (fresh "corrupt") DecodeError).
  - apply elem_of_cons. right. apply elem_of_cons. by left.
  - reflexivity.
Defined.

(** The claim of C3 as it stands fails: in a batch of three photos the
    second of which does not decode, the other two normalize, yet after the
    batch has settled neither of them is marked as indexed. *)
Lemma failed_batch_leaves_others_unindexed :
  let s := Dashboard.exec resize (mount [fresh "a"; fresh "corrupt"; fresh "c"])
             [Effect; Settle] in
  Dashboard.indexPhoto resize (fresh "a") = Ok ("a", "jpeg:a")
  ∧ Dashboard.indexPhoto resize (fresh "c") = Ok ("c", "jpeg:c")
  ∧ inFlight s = []
  ∧ (λ p, (id p, processed p, optimizedBase64 p)) <$> photos s
      = [("a", false, None); ("corrupt", false, None); ("c", false, None)].
Proof. by vm_compute. Qed.

End DashboardFacts.

(** ** More on the oracle adapter *)

Module AdapterFacts.
Import Gemini GeminiFacts Fixtures.

(** X1: the parts of a request are the reference images, then the
    candidate images, then one prompt: with R references and C candidates
    there are R + C + 1 parts, reference k is part k, candidate k is part
    R + k, which is the position that index k of the answer stands for,
    and the last part is the prompt, which states the two counts. *)
Theorem parts_layout (refs cands : list (option string)) :
  length (build_parts refs cands) = (length refs + length cands + 1)%nat
  ∧ (∀ k, (k < length refs)%nat →
       build_parts refs cands !! k = InlineData "image/jpeg" <$> refs !! k)
  ∧ (∀ k, (k < length cands)%nat →
       build_parts refs cands !! (length refs + k)%nat
         = InlineData "image/jpeg" <$> cands !! k)
  ∧ build_parts refs cands !! (length refs + length cands)%nat
      = Some (TextPrompt (length refs) (length cands)).
Proof.
  unfold build_parts. simpl. repeat split.
  - rewrite !length_app, !length_fmap. simpl. lia.
  - intros k Hk. rewrite <- app_assoc, lookup_app_l by (rewrite length_fmap; lia).
    apply list_lookup_fmap.
  - intros k Hk. rewrite <- app_assoc, lookup_app_r by (rewrite length_fmap; lia).
    rewrite length_fmap. replace (length refs + k - length refs)%nat with k by lia.
    rewrite lookup_app_l by (rewrite length_fmap; lia).
    apply list_lookup_fmap.
  - rewrite lookup_app_r by (rewrite length_app, !length_fmap; lia).
    rewrite length_app, !length_fmap.
    by replace (length refs + length cands - (length refs + length cands))%nat with 0%nat by lia.
Qed.

Section Facts.

Variable generateContent : nat → list Part → Result Response.
Variable JSON_parse : string → Result Json.

Local Abbreviation findFaceMatches :=
  (Gemini.findFaceMatches generateContent JSON_parse).

(** X2: when the service answers a request for a non-empty candidate list
    with a text that parses to an object with a matches array, the adapter
    returns that array as it is: it checks neither that the indices lie
    within the candidate list nor that they are distinct. It has sent
    exactly one request, the parts built from its arguments, and has logged
    nothing. *)
Theorem answer_passed_through refs cands w r t l :
  cands ≠ [] →
  generateContent (length (apiCalls w)) (build_parts refs cands) = Ok r →
  text r = Some t → t ≠ "" →
  JSON_parse t = Ok (JObject (Some l)) →
  findFaceMatches refs cands w
    = (Ok l, mkWorld (apiCalls w ++ [build_parts refs cands]) (console w)).
Proof.
  intros Hne Hr Ht Hnonempty Hp. unfold Gemini.findFaceMatches.
  destruct (decide _) as [H0|_]; [by destruct cands|].
  unfold try_catch, findFaceMatches_try, bind, ai_models_generateContent, lift_result.
  rewrite Hr, Ht. simpl.
  destruct (String.eqb_spec t ""); [done|]. simpl. by rewrite Hp.
Qed.

(** X3: of the failures inside the adapter, those that throw (the service
    rejects, the text does not parse, the parsed value is null) leave
    exactly one line on the console; an empty response text and a missing
    matches key leave none, so nothing at all tells them from an answer
    with no matches. In every case one request has been sent. *)
Theorem failures_logged_or_silent refs cands w :
  cands ≠ [] →
  let n := length (apiCalls w) in
  let parts := build_parts refs cands in
  let after := snd (findFaceMatches refs cands w) in
  apiCalls after = apiCalls w ++ [parts]
  ∧ ((∃ e, generateContent n parts = Throw e)
     ∨ (∃ r t, generateContent n parts = Ok r ∧ text r = Some t ∧ t ≠ ""
               ∧ ((∃ e, JSON_parse t = Throw e) ∨ JSON_parse t = Ok JNull)) →
     console after = console w ++ ["Gemini Face Match Error:"])
  ∧ ((∃ r, generateContent n parts = Ok r ∧ truthy (text r) = false)
     ∨ (∃ r t, generateContent n parts = Ok r ∧ text r = Some t ∧ t ≠ ""
               ∧ JSON_parse t = Ok (JObject None)) →
     findFaceMatches refs cands w = (Ok [], mkWorld (apiCalls w ++ [parts]) (console w))).
Proof.
  intros Hne n parts after.
  split; [by apply findFaceMatches_calls|].
  subst after. unfold Gemini.findFaceMatches.
  destruct (decide _) as [H0|_]; [by destruct cands|].
  unfold try_catch, findFaceMatches_try, bind, ai_models_generateContent, lift_result.
  fold parts. fold n. split.
  - intros [[e He]|(r & t & Hr & Ht & Hnonempty & Hp)].
    + by rewrite He.
    + rewrite Hr, Ht. simpl. destruct (String.eqb_spec t ""); [done|]. simpl.
      by destruct Hp as [[e ->]| ->].
  - intros [(r & Hr & Ht)|(r & t & Hr & Ht & Hnonempty & Hp)].
    + by rewrite Hr, Ht.
    + rewrite Hr, Ht. simpl. destruct (String.eqb_spec t ""); [done|]. simpl.
      by rewrite Hp.
Qed.

End Facts.

Lemma parts_layout_witness :
  build_parts [Some "front"; Some "left"] [Some "a"; Some "b"; Some "c"] !! 3%nat
    = Some (InlineData "image/jpeg" (Some "b")).
Proof.
  apply (parts_layout [Some "front"; Some "left"] [Some "a"; Some "b"; Some "c"]).
  simpl. lia.
Defined.

Lemma answer_passed_through_witness :
  Gemini.findFaceMatches namesTwice parse [Some "front"] [Some "a"] (mkWorld [] [])
    = (Ok [0; 0],
       mkWorld ([] ++ [build_parts [Some "front"] [Some "a"]]) []).
Proof.
  apply (answer_passed_through namesTwice parse [Some "front"] [Some "a"] (mkWorld [] [])
           {| text := Some "matches 0 0" |} "matches 0 0" [0; 0]);
    try reflexivity; discriminate.
Defined.

Lemma failures_logged_or_silent_witness :
  apiCalls (snd (Gemini.findFaceMatches secondCallThrows parse [Some "front"] [Some "a"]
                   (mkWorld [[]] [])))
    = [[]] ++ [build_parts [Some "front"] [Some "a"]].
Proof.
  apply (failures_logged_or_silent secondCallThrows parse [Some "front"] [Some "a"]
           (mkWorld [[]] [])).
  discriminate.
Defined.

End AdapterFacts.

(** ** More on the scan *)

Module ScanMore.
Import Scan ResultFacts GeminiFacts ScanFacts Fixtures Samples.

Section Facts.

Variable generateContent : nat → list Part → Result Response.
Variable JSON_parse : string → Result Json.
Variable resizeImage : File → Z → Result string.

Local Abbreviation findFaceMatches :=
  (Gemini.findFaceMatches generateContent JSON_parse).
Local Abbreviation candidateBase64 := (Scan.candidateBase64 resizeImage).
Local Abbreviation step := (Scan.step generateContent JSON_parse resizeImage).
Local Abbreviation exec := (Scan.exec generateContent JSON_parse resizeImage).
Local Abbreviation runScan := (Scan.runScan generateContent JSON_parse resizeImage).
Local Abbreviation scanError :=
  (Some "AI service unavailable or interrupted. Please try again.").

(** X4: without a reference frame, or without event photos, the click on
    Find Matches changes nothing: no flag, no progress value, no request,
    and no invocation is left suspended. *)
Theorem scan_without_input_is_no_op photos s :
  referenceFrames (ui s) = [] ∨ photos = [] →
  runScan photos s = mkClient s None.
Proof.
  intros H. unfold Scan.runScan. rewrite click_startScan_no_op by done.
  by apply exec_idle.
Qed.

(** Once no invocation is suspended, only the matched ids can change. *)
Lemma ended_stays c evs :
  pending c = None →
  pending (exec c evs) = None
  ∧ world (state (exec c evs)) = world (state c)
  ∧ published (state (exec c evs)) = published (state c)
  ∧ error (ui (state (exec c evs))) = error (ui (state c))
  ∧ isScanning (ui (state (exec c evs))) = isScanning (ui (state c))
  ∧ scanProgress (ui (state (exec c evs))) = scanProgress (ui (state c))
  ∧ referenceFrames (ui (state (exec c evs))) = referenceFrames (ui (state c))
  ∧ matchedPhotoIds (ui (state (exec c evs))) ⊆ matchedPhotoIds (ui (state c)).
Proof.
  revert c. induction evs as [|ev evs IH]; intros c Hp; [done|].
  rewrite (exec_cons generateContent JSON_parse resizeImage).
  destruct ev as [|photoId].
  - rewrite step_Resume_idle by done. by apply IH.
  - destruct (IH (step c (Deselect photoId)) Hp) as (? & ? & ? & ? & ? & ? & ? & Hsub).
    repeat split; try done.
    etrans; [exact Hsub|]. simpl. intros x Hx.
    by apply list_elem_of_filter in Hx as [_ Hx].
Qed.

(** X5: when a photo of the chunk at hand cannot be normalized, the scan
    ends there: the error is set, the flag goes down, the progress jumps to
    100, the ids matched so far stay, and neither this chunk nor any later
    one is sent to the oracle, whatever happens afterwards. *)
Theorem normalization_failure_ends_scan c r p e :
  pending c = Some r → p ∈ chunkOf r → candidateBase64 p = Throw e →
  pending (step c Resume) = None
  ∧ error (ui (state (step c Resume))) = scanError
  ∧ isScanning (ui (state (step c Resume))) = false
  ∧ scanProgress (ui (state (step c Resume))) = 100
  ∧ matchedPhotoIds (ui (state (step c Resume))) = matchedPhotoIds (ui (state c))
  ∧ (∀ later,
       apiCalls (world (state (exec (step c Resume) later))) = apiCalls (world (state c))
       ∧ error (ui (state (exec (step c Resume) later))) = scanError).
Proof.
  intros Hp Hin He.
  destruct (sequence_fails candidateBase64 (chunkOf r) p e Hin He) as [e' He'].
  assert (step c Resume = mkClient (failed (state c) (world (state c))) None) as ->.
  { unfold Scan.step. rewrite Hp.
    by rewrite (resumeScan_normalization_fails generateContent JSON_parse resizeImage
                  r (state c) e' He'). }
  repeat split; try done.
  - by destruct (ended_stays (mkClient (failed (state c) (world (state c))) None) later eq_refl)
      as (_ & -> & _).
  - by destruct (ended_stays (mkClient (failed (state c) (world (state c))) None) later eq_refl)
      as (_ & _ & _ & -> & _).
Qed.

Lemma chunk_id_outside chunk idx :
  idx < 0 ∨ Z.of_nat (length chunk) ≤ idx → chunk_id chunk idx = Throw TypeError.
Proof.
  intros H. unfold chunk_id. destruct (0 <=? idx) eqn:Hle; [|done].
  rewrite lookup_ge_None_2; [done|]. lia.
Qed.

(** X6: an answer of the oracle that holds an index outside the chunk,
    negative or past its end, makes the scan fail after the request has
    been sent: the error is set and no id of this chunk is added, not even
    for the indices of the answer that are within the chunk. *)
Theorem index_outside_chunk_fails_scan c r bs idxs idx :
  pending c = Some r →
  Promise_all (candidateBase64 <$> chunkOf r) = Ok bs →
  fst (findFaceMatches (run_referenceFrames r) (Some <$> bs) (world (state c))) = Ok idxs →
  idx ∈ idxs → idx < 0 ∨ Z.of_nat (length (chunkOf r)) ≤ idx →
  pending (step c Resume) = None
  ∧ error (ui (state (step c Resume))) = scanError
  ∧ isScanning (ui (state (step c Resume))) = false
  ∧ matchedPhotoIds (ui (state (step c Resume))) = matchedPhotoIds (ui (state c))
  ∧ apiCalls (world (state (step c Resume)))
      = apiCalls (world (state c))
          ++ [Gemini.build_parts (run_referenceFrames r) (Some <$> bs)].
Proof.
  intros Hp Hn Hf Hin Hout.
  destruct (sequence_fails (chunk_id (chunkOf r)) idxs idx TypeError Hin
              (chunk_id_outside _ _ Hout)) as [e' He'].
  assert (Some <$> bs ≠ []) as Hbs.
  { intros Hnil. rewrite Hnil in Hf. simpl in Hf. injection Hf as <-.
    by apply not_elem_of_nil in Hin. }
  unfold Scan.step. rewrite Hp.
  rewrite (resumeScan_index_fails generateContent JSON_parse resizeImage r (state c) bs idxs
             (snd (findFaceMatches (run_referenceFrames r) (Some <$> bs) (world (state c))))
             e' Hn); [|by rewrite <- Hf; apply surjective_pairing|done].
  repeat split. simpl. by rewrite findFaceMatches_calls.
Qed.

Lemma Flags_step c ev : Guest.Flags c → Guest.Flags (step c ev).
Proof.
  intros Hc. destruct ev as [|photoId]; [|exact Hc].
  unfold Guest.Flags in Hc. destruct (pending c) as [r|] eqn:Hp.
  2:{ rewrite step_Resume_idle by done. unfold Guest.Flags. by rewrite Hp. }
  destruct Hc as [Hs He].
  destruct (step_Resume_cases generateContent JSON_parse resizeImage c r Hp)
    as [[w ->] | (bs & idxs & ids & w & Hn & Hf & Hm & [[Hlt ->] | [Hge ->]])];
    unfold Guest.Flags; simpl; auto.
Qed.

Lemma Flags_exec c evs : Guest.Flags c → Guest.Flags (exec c evs).
Proof.
  revert c. induction evs as [|ev evs IH]; intros c Hc; [done|].
  rewrite (exec_cons generateContent JSON_parse resizeImage). by apply IH, Flags_step.
Qed.

Lemma Flags_click photos s :
  referenceFrames (ui s) ≠ [] → photos ≠ [] →
  Guest.Flags (Scan.click_startScan photos s).
Proof. intros Hr Hne. rewrite click_startScan_starts by done. by split. Qed.

(** X7: from the click to the end of a scan, the scanning flag is up
    exactly while an invocation is suspended, and no error is shown during
    that time; once the invocation has ended the flag is down, the progress
    stands at 100, and the error is either absent or the one message of
    the scan. *)
Theorem scanning_flag_tracks_invocation photos s evs :
  referenceFrames (ui s) ≠ [] → photos ≠ [] →
  let c := exec (Scan.click_startScan photos s) evs in
  (isScanning (ui (state c)) = true ↔ pending c ≠ None)
  ∧ (pending c ≠ None → error (ui (state c)) = None)
  ∧ (pending c = None →
       scanProgress (ui (state c)) = 100
       ∧ (error (ui (state c)) = None ∨ error (ui (state c)) = scanError)).
Proof.
  intros Hr Hne c.
  assert (Guest.Flags c) as Hc by by apply Flags_exec, Flags_click.
  unfold Guest.Flags in Hc. destruct (pending c) as [r|].
  - destruct Hc as [-> ->]. by repeat split.
  - destruct Hc as (-> & -> & He). split; [|by split].
    split; [done|by intros []].
Qed.

End Facts.

Lemma scan_without_input_is_no_op_witness :
  Scan.runScan firstChunkMatches parse resize tenPhotos newcomer = mkClient newcomer None.
Proof.
  apply (scan_without_input_is_no_op firstChunkMatches parse resize tenPhotos newcomer).
  by left.
Defined.

Lemma normalization_failure_ends_scan_witness :
  let c := Scan.click_startScan withCorrupt guest in
  pending (Scan.step firstChunkMatches parse resize c Resume) = None.
Proof.
  apply (normalization_failure_ends_scan firstChunkMatches parse resize
           (Scan.click_startScan withCorrupt guest)
           (mkRun [Some "front"] withCorrupt 0 []) (fresh "corrupt") DecodeError).
  - reflexivity.
  - apply elem_of_cons. right. apply elem_of_cons. by left.
  - reflexivity.
Defined.

Lemma index_outside_chunk_fails_scan_witness :
  let c := Scan.click_startScan tenPhotos guest in
  matchedPhotoIds (ui (state (Scan.step namesOutside parseOutside resize c Resume))) = [].
Proof.
  apply (index_outside_chunk_fails_scan namesOutside parseOutside resize
           (Scan.click_startScan tenPhotos guest)
           (mkRun [Some "front"] tenPhotos 0 []) (replicate 4 "b64") [0; 9] 9).
  - reflexivity.
  - reflexivity.
  - reflexivity.
  - apply elem_of_cons. right. apply elem_of_cons. by left.
  - right. simpl. lia.
Defined.

Lemma scanning_flag_tracks_invocation_witness :
  let c := Scan.exec firstChunkMatches parse resize
             (Scan.click_startScan tenPhotos guest) [Resume] in
  (isScanning (ui (state c)) = true ↔ pending c ≠ None)
  ∧ (pending c ≠ None → error (ui (state c)) = None)
  ∧ (pending c = None →
       scanProgress (ui (state c)) = 100
       ∧ (error (ui (state c)) = None
          ∨ error (ui (state c))
             = Some "AI service unavailable or interrupted. Please try again.")).
Proof.
  apply (scanning_flag_tracks_invocation firstChunkMatches parse resize tenPhotos guest
           [Resume]); discriminate.
Defined.

End ScanMore.

(** ** Candidates, requests and the cache *)

Module ChunkFacts.
Import Scan ResultFacts GeminiFacts ScanFacts Fixtures Samples.

Lemma build_parts_length (refs cands : list (option string)) :
  length (Gemini.build_parts refs cands) = (length refs + length cands + 1)%nat.
Proof. unfold Gemini.build_parts. simpl. rewrite !length_app, !length_fmap. simpl. lia. Qed.

Lemma sequence_Forall2_Ok {A B} (f : A → Result B) (xs : list A) (ys : list B) :
  Forall2 (λ x y, f x = Ok y) xs ys → sequence (f <$> xs) = Ok ys.
Proof. induction 1 as [|x y xs ys Hx _ IH]; csimpl; [done|]. by rewrite Hx, IH. Qed.

Lemma candidate_cached rs p :
  truthy (optimizedBase64 p) = true →
  Scan.candidateBase64 rs p = Ok (default "" (optimizedBase64 p)).
Proof. intros H. unfold Scan.candidateBase64. by rewrite H. Qed.

Lemma cached_chunk rs1 rs2 (photos : list Photo) j :
  Forall (λ p, truthy (optimizedBase64 p) = true) photos →
  Scan.candidateBase64 rs1 <$> slice photos j (j + BATCH_SIZE)
    = Scan.candidateBase64 rs2 <$> slice photos j (j + BATCH_SIZE).
Proof.
  intros H. apply list_fmap_ext. intros k p Hp.
  assert (truthy (optimizedBase64 p) = true) as Hc.
  { rewrite Forall_forall in H. apply H.
    apply list_elem_of_lookup_2 in Hp. unfold slice in Hp.
    eapply (subseteq_drop j photos), subseteq_take, Hp. }
  by rewrite !candidate_cached.
Qed.

Section Facts.

Variable generateContent : nat → list Part → Result Response.
Variable JSON_parse : string → Result Json.

Local Abbreviation findFaceMatches :=
  (Gemini.findFaceMatches generateContent JSON_parse).

Lemma cached_step rs1 rs2 c :
  (∀ r, pending c = Some r →
        Forall (λ p, truthy (optimizedBase64 p) = true) (photosToScan r)) →
  ∀ ev, Scan.step generateContent JSON_parse rs1 c ev
        = Scan.step generateContent JSON_parse rs2 c ev.
Proof.
  intros Hc [|photoId]; [|done]. unfold Scan.step.
  destruct (pending c) as [r|]; [|done].
  unfold resumeScan, attempt, scanIteration, bind, lift_result.
  by rewrite (cached_chunk rs1 rs2 _ _ (Hc r eq_refl)).
Qed.

Lemma step_keeps_photos rs c ev r' :
  pending (Scan.step generateContent JSON_parse rs c ev) = Some r' →
  ∃ r, pending c = Some r ∧ photosToScan r' = photosToScan r
       ∧ run_referenceFrames r' = run_referenceFrames r.
Proof.
  destruct ev as [|photoId]; [|by exists r'].
  destruct (pending c) as [r|] eqn:Hp.
  2:{ rewrite step_Resume_idle by done. by rewrite Hp. }
  destruct (step_Resume_cases generateContent JSON_parse rs c r Hp)
    as [[w ->] | (bs & idxs & ids & w & Hn & Hf & Hm & [[Hlt ->] | [Hge ->]])];
    simpl; try done.
  intros [= <-]. by exists r.
Qed.

(** X8: a candidate that carries a non-empty cached representation is
    sent as that representation and [resizeImage] is not consulted for it:
    for an event set all of whose photos are indexed, the whole scan, with
    everything it publishes and sends, is the same whatever the normalizer
    would do, and the candidates of the requests are the cached strings. *)
Theorem indexed_photos_are_not_renormalized rs1 rs2 photos s evs :
  Forall (λ p, truthy (optimizedBase64 p) = true) photos →
  Scan.exec generateContent JSON_parse rs1 (Scan.click_startScan photos s) evs
    = Scan.exec generateContent JSON_parse rs2 (Scan.click_startScan photos s) evs
  ∧ Promise_all (Scan.candidateBase64 rs1 <$> photos)
      = Ok ((λ p, default "" (optimizedBase64 p)) <$> photos).
Proof.
  intros Hall. split.
  - assert (∀ r, pending (Scan.click_startScan photos s) = Some r →
                 Forall (λ p, truthy (optimizedBase64 p) = true) (photosToScan r)) as Hc.
    { intros r. unfold Scan.click_startScan, startScan, bind, gets.
      destruct (decide _); [done|]. simpl. unfold loopHead. simpl.
      destruct (decide _); simpl; [|done]. by intros [= <-]. }
    revert Hc. generalize (Scan.click_startScan photos s).
    induction evs as [|ev evs IH]; intros c Hc; [done|].
    rewrite !exec_cons. rewrite (cached_step rs1 rs2 c Hc ev).
    apply IH. intros r' Hr'.
    destruct (step_keeps_photos rs2 c ev r' Hr') as (r & Hr & -> & _). by apply Hc.
  - unfold Promise_all. apply sequence_Forall2_Ok.
    induction Hall as [|p ps Hp _ IH]; csimpl; constructor; [|done].
    by apply candidate_cached.
Qed.

Variable resizeImage : File → Z → Result string.

Local Abbreviation candidateBase64 := (Scan.candidateBase64 resizeImage).
Local Abbreviation step := (Scan.step generateContent JSON_parse resizeImage).
Local Abbreviation exec := (Scan.exec generateContent JSON_parse resizeImage).

Lemma step_Resume_calls c r :
  pending c = Some r →
  apiCalls (world (state (step c Resume))) = apiCalls (world (state c))
  ∨ ∃ bs, (length bs ≤ BATCH_SIZE)%nat
          ∧ apiCalls (world (state (step c Resume)))
              = apiCalls (world (state c))
                  ++ [Gemini.build_parts (run_referenceFrames r) (Some <$> bs)].
Proof.
  intros Hp.
  destruct (step_Resume_cases generateContent JSON_parse resizeImage c r Hp)
    as [[w Hw] | (bs & idxs & ids & w & Hn & Hf & Hm & Hcases)].
  - (* the failure may come before or after the request *)
    unfold Scan.step in Hw |- *. rewrite Hp in Hw |- *.
    destruct (Promise_all (candidateBase64 <$> chunkOf r)) as [bs|e] eqn:Hn.
    2:{ left. by rewrite (resumeScan_normalization_fails _ _ _ _ _ _ Hn). }
    destruct (findFaceMatches_returns generateContent JSON_parse
                (run_referenceFrames r) (Some <$> bs) (world (state c))) as (idxs & w' & Hf).
    assert (apiCalls w' = apiCalls (world (state c))
            ∨ ∃ bs0, (length bs0 ≤ BATCH_SIZE)%nat
                     ∧ apiCalls w' = apiCalls (world (state c))
                         ++ [Gemini.build_parts (run_referenceFrames r) (Some <$> bs0)]) as Hw'.
    { destruct bs as [|b bs'] eqn:Hbs.
      - left. rewrite findFaceMatches_empty in Hf. by injection Hf as _ <-.
      - right. exists (b :: bs'). split.
        + apply sequence_Ok_Forall2, Forall2_length in Hn. rewrite <- Hn.
          unfold chunkOf, slice. rewrite length_take. lia.
        + replace w' with (snd (findFaceMatches (run_referenceFrames r)
                                  (Some <$> b :: bs') (world (state c))))
            by by rewrite Hf.
          by rewrite findFaceMatches_calls. }
    destruct (map_throwing (chunk_id (chunkOf r)) idxs) as [ids|e] eqn:Hm.
    + rewrite (resumeScan_ok _ _ _ _ _ _ _ _ _ Hn Hf Hm).
      unfold loopHead. destruct (decide _); simpl; exact Hw'.
    + rewrite (resumeScan_index_fails _ _ _ _ _ _ _ _ _ Hn Hf Hm). exact Hw'.
  - assert (apiCalls w = apiCalls (world (state c))
            ∨ ∃ bs0, (length bs0 ≤ BATCH_SIZE)%nat
                     ∧ apiCalls w = apiCalls (world (state c))
                         ++ [Gemini.build_parts (run_referenceFrames r) (Some <$> bs0)]) as Hw'.
    { destruct bs as [|b bs'] eqn:Hbs.
      - left. rewrite findFaceMatches_empty in Hf. by injection Hf as _ <-.
      - right. exists (b :: bs'). split.
        + apply sequence_Ok_Forall2, Forall2_length in Hn. rewrite <- Hn.
          unfold chunkOf, slice. rewrite length_take. lia.
        + replace w with (snd (findFaceMatches (run_referenceFrames r)
                                 (Some <$> b :: bs') (world (state c))))
            by by rewrite Hf.
          by rewrite findFaceMatches_calls. }
    by destruct Hcases as [[_ ->]|[_ ->]].
Qed.

(** X9: a scan of n candidates with R reference frames sends at most
    ceil(n / 4) requests, one chunk after the other, and each of them has
    at most R + 4 + 1 parts: the references, at most four candidates, and
    the prompt. This holds at every point of the scan, whatever the oracle
    answers and whatever the guest deselects. *)
Theorem requests_are_bounded photos s evs :
  referenceFrames (ui s) ≠ [] → photos ≠ [] →
  ∃ sent,
    apiCalls (world (state (exec (Scan.click_startScan photos s) evs)))
      = apiCalls (world s) ++ sent
    ∧ (length sent ≤ (length photos + 3) / 4)%nat
    ∧ Forall (λ parts, (length parts ≤ length (referenceFrames (ui s)) + BATCH_SIZE + 1)%nat)
        sent.
Proof.
  intros Hr Hne.
  set (R := length (referenceFrames (ui s))).
  set (Inv := λ c : Client,
    ∃ sent k,
      apiCalls (world (state c)) = apiCalls (world s) ++ sent
      ∧ (length sent ≤ k)%nat
      ∧ Forall (λ parts, (length parts ≤ R + BATCH_SIZE + 1)%nat) sent
      ∧ match pending c with
        | Some r => i r = (BATCH_SIZE * k)%nat
                    ∧ run_referenceFrames r = referenceFrames (ui s)
                    ∧ photosToScan r = photos ∧ (i r < length photos)%nat
        | None => (k ≤ (length photos + 3) / 4)%nat
        end).
  assert (∀ c ev, Inv c → Inv (step c ev)) as Hstep.
  { intros c ev (sent & k & Hcalls & Hlen & Hparts & Hpend).
    destruct ev as [|photoId]; [|by exists sent, k].
    destruct (pending c) as [r|] eqn:Hp.
    2:{ rewrite step_Resume_idle by done. exists sent, k. by rewrite Hp. }
    destruct Hpend as (Hi & Hrefs & Hphotos & Hlt).
    assert (∃ sent', apiCalls (world (state (step c Resume))) = apiCalls (world s) ++ sent'
                     ∧ (length sent' ≤ S k)%nat
                     ∧ Forall (λ parts, (length parts ≤ R + BATCH_SIZE + 1)%nat) sent')
      as (sent' & Hcalls' & Hlen' & Hparts').
    { destruct (step_Resume_calls c r Hp) as [->|(bs & Hbs & ->)].
      - exists sent. repeat split; [done|lia|done].
      - exists (sent ++ [Gemini.build_parts (run_referenceFrames r) (Some <$> bs)]).
        repeat split.
        + by rewrite Hcalls, app_assoc.
        + rewrite length_app. simpl. lia.
        + apply Forall_app. split; [done|]. constructor; [|done].
          rewrite build_parts_length, length_fmap, Hrefs. fold R. lia. }
    exists sent', (S k). repeat split; try done.
    destruct (pending (step c Resume)) as [r'|] eqn:Hp'.
    - destruct (step_Resume_cases generateContent JSON_parse resizeImage c r Hp)
        as [[w Hw] | (bs & idxs & ids & w & Hn & Hf & Hm & [[Hlt' Hw] | [Hge Hw]])];
        rewrite Hw in Hp'; simpl in Hp'; try done.
      injection Hp' as <-. simpl. rewrite Hphotos in Hlt'.
      repeat split; try done. unfold BATCH_SIZE in *. lia.
    - unfold BATCH_SIZE in *.
      assert (k + 1 ≤ (length photos + 3) / 4)%nat; [|lia].
      apply Nat.div_le_lower_bound; lia. }
  assert (∀ evs c, Inv c → Inv (exec c evs)) as Hexec.
  { intros evs'. induction evs' as [|ev evs' IH]; intros c Hc; [done|].
    rewrite (exec_cons generateContent JSON_parse resizeImage). by apply IH, Hstep. }
  destruct (Hexec evs (Scan.click_startScan photos s)) as (sent & k & Hcalls & Hlen & Hparts & Hpend).
  { rewrite click_startScan_starts by done. exists [], 0%nat. simpl.
    rewrite app_nil_r. repeat split; try done.
    destruct photos; [done|simpl; lia]. }
  exists sent. repeat split; [done| |done].
  destruct (pending _) as [r|].
  - destruct Hpend as (Hi & _ & _ & Hlt). unfold BATCH_SIZE in *.
    etrans; [exact Hlen|]. apply Nat.div_le_lower_bound; lia.
  - lia.
Qed.

End Facts.

Lemma indexed_photos_are_not_renormalized_witness :
  Scan.exec firstChunkMatches parse resize (Scan.click_startScan tenPhotos guest) [Resume]
    = Scan.exec firstChunkMatches parse (λ _ _, Throw DecodeError)
        (Scan.click_startScan tenPhotos guest) [Resume]
  ∧ Promise_all (Scan.candidateBase64 resize <$> tenPhotos)
      = Ok ((λ p, default "" (optimizedBase64 p)) <$> tenPhotos).
Proof.
  apply (indexed_photos_are_not_renormalized firstChunkMatches parse resize
           (λ _ _, Throw DecodeError) tenPhotos guest [Resume]).
  repeat constructor.
Defined.

Lemma requests_are_bounded_witness :
  ∃ sent,
    apiCalls (world (state (Scan.runScan firstChunkMatches parse resize tenPhotos guest)))
      = [] ++ sent
    ∧ (length sent ≤ (10 + 3) / 4)%nat
    ∧ Forall (λ parts, (length parts ≤ 1 + BATCH_SIZE + 1)%nat) sent.
Proof.
  apply (requests_are_bounded firstChunkMatches parse resize tenPhotos guest
           (replicate 10 Resume)); discriminate.
Defined.

End ChunkFacts.

(** ** The results grid, the selfie and the scan control *)

Module GuestFacts.
Import ResultFacts GeminiFacts ScanFacts Fixtures Samples.

(** X10: the results grid follows the order of the event photos, not the
    order in which matches were found, and shows an event photo at most
    once however often its id was matched; it depends on the matched ids
    as a set only; and deselecting an id takes exactly the photos with that
    id out of the grid. *)
Theorem grid_follows_event_order (eventPhotos : list Photo) (p : Portal) :
  sublist (Views.matchedPhotos eventPhotos p) eventPhotos
  ∧ (∀ q, (∀ x, x ∈ matchedPhotoIds p ↔ x ∈ matchedPhotoIds q) →
          Views.matchedPhotos eventPhotos q = Views.matchedPhotos eventPhotos p)
  ∧ (∀ photoId,
       Views.matchedPhotos eventPhotos (Guest.deselect photoId p)
         = filter (λ photo, id photo ≠ photoId) (Views.matchedPhotos eventPhotos p))
  ∧ (∀ photoId, photoId ∉ id <$> Views.matchedPhotos eventPhotos (Guest.deselect photoId p)).
Proof.
  unfold Views.matchedPhotos. repeat split.
  - apply sublist_filter.
  - intros q Hq. apply list_filter_iff. intros photo. by rewrite Hq.
  - intros photoId. unfold Guest.deselect. simpl.
    rewrite list_filter_filter. apply list_filter_iff. intros photo.
    rewrite list_elem_of_filter. tauto.
  - intros photoId. unfold Guest.deselect. simpl.
    rewrite list_elem_of_fmap. intros (photo & -> & Hin).
    apply list_elem_of_filter in Hin as [Hin _].
    apply list_elem_of_filter in Hin as [Hne _]. done.
Qed.

Section Facts.

Variable generateContent : nat → list Part → Result Response.
Variable JSON_parse : string → Result Json.
Variable resizeImage : File → Z → Result string.

Local Abbreviation click_startScan := Scan.click_startScan.
Local Abbreviation runScan := (Scan.runScan generateContent JSON_parse resizeImage).
Local Abbreviation handleSelfieSelect := (Views.handleSelfieSelect resizeImage).
Local Abbreviation act := (Guest.act resizeImage).
Local Abbreviation acts := (Guest.acts resizeImage).

Local Abbreviation scanFlags := Views.scanFlags.

(** The handlers of the selfie, the camera and the grid never write the
    scanning flag or the scan progress. *)
Lemma on_ui_scanFlags f s :
  (∀ p, scanFlags (f p) = scanFlags p) →
  scanFlags (Capture.ui (Capture.on_ui f s)) = scanFlags (Capture.ui s).
Proof. intros Hf. unfold Capture.on_ui. destruct (Capture.mounted s); [apply Hf|done]. Qed.

Lemma stopCamera_scanFlags seen s :
  scanFlags (Capture.ui (Capture.stopCamera seen s)) = scanFlags (Capture.ui s).
Proof.
  destruct s as [p m ls ts cs]. unfold Capture.stopCamera, Capture.stopTracks, Capture.on_ui.
  destruct seen, m; reflexivity.
Qed.

Lemma finishRecording_scanFlags fs seen s :
  scanFlags (Capture.ui (Capture.finishRecording fs seen s)) = scanFlags (Capture.ui s).
Proof.
  unfold Capture.finishRecording. destruct (decide _).
  - destruct s as [p m ls ts cs]. unfold Capture.on_ui. by destruct m.
  - rewrite stopCamera_scanFlags. by apply on_ui_scanFlags.
Qed.

Lemma runStep_scanFlags st now fs seen s :
  scanFlags (Capture.ui (Capture.runStep st now fs seen s)) = scanFlags (Capture.ui s).
Proof.
  destruct s as [p m ls ts cs]. unfold Capture.runStep, Capture.on_ui. by destruct m.
Qed.

Lemma next_scanFlags st now fs seen s :
  scanFlags (Capture.ui (Capture.next st now fs seen s)) = scanFlags (Capture.ui s).
Proof.
  unfold Capture.next.
  destruct st; rewrite ?runStep_scanFlags, ?finishRecording_scanFlags; try done;
    by apply on_ui_scanFlags.
Qed.

Lemma step_scanFlags s ev :
  scanFlags (Capture.ui (Capture.step s ev)) = scanFlags (Capture.ui s).
Proof.
  destruct ev as [getUserMedia|now| |k now canvas|]; unfold Capture.step.
  - destruct (Capture.mounted s) eqn:Hm; [|done].
    destruct s as [p m ls ts cs]. simpl in Hm. subst m.
    unfold Capture.startCamera, Capture.on_ui. by destruct getUserMedia.
  - destruct (_ && _); [|done]. apply runStep_scanFlags.
  - destruct (_ && _); [|done]. apply stopCamera_scanFlags.
  - destruct (Capture.timers s !! k) as [[iv|seen]|]; [| |done].
    + unfold Capture.intervalCallback.
      set (prog := Qmin _ _). clearbody prog.
      destruct (decide _).
      * rewrite next_scanFlags. unfold Capture.set_timers. simpl.
        by apply on_ui_scanFlags.
      * by apply on_ui_scanFlags.
    + by rewrite stopCamera_scanFlags.
  - destruct (Capture.mounted s); [|done]. unfold Capture.unmountCleanup. done.
Qed.

Lemma handleSelfieSelect_scanFlags selected p :
  scanFlags (handleSelfieSelect selected p) = scanFlags p.
Proof.
  unfold Views.handleSelfieSelect. destruct selected as [[file url]|]; [|done].
  by destruct (resizeImage file 600).
Qed.

Lemma act_scanFlags s a :
  scanFlags (Capture.ui (act s a)) = scanFlags (Capture.ui s).
Proof.
  destruct a as [selected|ev|photoId]; simpl.
  - apply on_ui_scanFlags, handleSelfieSelect_scanFlags.
  - apply step_scanFlags.
  - by apply on_ui_scanFlags.
Qed.

Lemma acts_scanFlags s l :
  scanFlags (Capture.ui (acts s l)) = scanFlags (Capture.ui s).
Proof.
  revert s. induction l as [|a l IH]; intros s; [done|].
  unfold Guest.acts. simpl. fold (acts (act s a) l). by rewrite IH, act_scanFlags.
Qed.

(** X11: a scan that has run leaves the scan progress at 100, and no
    handler but [startScan] itself ever sets it back: whatever the guest
    then does with the selfie upload, the camera and its timers, and the
    grid, the control beside the selfie stays "Analysis Complete" and the
    button bound to [startScan] is not rendered again, also after a new
    selfie has replaced the reference frames and cleared the matches. *)
Theorem no_second_scan (photos : list Photo) (s : Scan.State) (g : Capture.State)
    (l : list Guest.Action) :
  referenceFrames (Scan.ui s) ≠ [] → photos ≠ [] →
  Capture.ui g = Scan.ui (Scan.state (runScan photos s)) →
  Views.ScanEnded (Capture.ui g)
  ∧ Views.ScanEnded (Capture.ui (acts g l))
  ∧ Views.scanControl (Capture.ui (acts g l)) = Views.AnalysisComplete.
Proof.
  intros Hr Hne Hg.
  assert (Views.ScanEnded (Capture.ui g)) as Hended.
  { rewrite Hg. unfold Scan.runScan.
    pose proof (ScanMore.Flags_exec generateContent JSON_parse resizeImage _
                  (replicate (length photos) Scan.Resume)
                  (ScanMore.Flags_click photos s Hr Hne)) as HF.
    unfold Guest.Flags in HF. fold (runScan photos s) in HF.
    rewrite (runScan_finishes generateContent JSON_parse resizeImage) in HF.
    destruct HF as (? & ? & _). by split. }
  assert (Views.ScanEnded (Capture.ui (acts g l))) as Hafter.
  { pose proof (acts_scanFlags g l) as Hk. unfold Views.scanFlags in Hk.
    injection Hk as Hs Hp. destruct Hended as [Hs0 Hp0].
    split; congruence. }
  repeat split; try apply Hended; try apply Hafter.
  destruct Hafter as [Hs Hp]. unfold Views.scanControl. rewrite Hs, Hp.
  by rewrite andb_false_r.
Qed.

(** X12: a selfie file that normalizes becomes the one reference frame:
    the avatar is its object URL, the former matches, error and WhatsApp
    flag are reset, and a click on Find Matches then starts a scan with
    that one reference, over all the event photos, from the first one. *)
Theorem uploaded_selfie_is_the_reference file url base64 (p : Portal) :
  resizeImage file 600 = Ok base64 →
  let p' := handleSelfieSelect (Some (file, url)) p in
  p' = set_waSent false (set_error None (set_matchedPhotoIds []
         (set_referenceFrames [Some base64] (set_displaySelfie (Some url) p))))
  ∧ (∀ photos w pub, photos ≠ [] →
       Scan.pending (click_startScan photos (Scan.mkState p' w pub))
         = Some (Scan.mkRun [Some base64] photos 0 [])).
Proof.
  intros Hok p'. subst p'. unfold Views.handleSelfieSelect. rewrite Hok.
  split; [done|]. intros photos w pub Hne.
  rewrite click_startScan_starts; [done|done|done].
Qed.

(** X13: a selfie file that fails to normalize changes the avatar and
    sets the upload error, and nothing else: the reference frames and the
    matches of the selfie before it stay, so a scan started afterwards
    compares against the former face while the new one is on display. *)
Theorem failed_upload_keeps_old_reference file url e (p : Portal) :
  resizeImage file 600 = Throw e →
  let p' := handleSelfieSelect (Some (file, url)) p in
  p' = set_error (Some "Failed to process photo. Please try again.")
         (set_displaySelfie (Some url) p)
  ∧ referenceFrames p' = referenceFrames p
  ∧ matchedPhotoIds p' = matchedPhotoIds p
  ∧ (∀ photos w pub, referenceFrames p ≠ [] → photos ≠ [] →
       Scan.pending (click_startScan photos (Scan.mkState p' w pub))
         = Some (Scan.mkRun (referenceFrames p) photos 0 [])).
Proof.
  intros Hthrow p'. subst p'. unfold Views.handleSelfieSelect. rewrite Hthrow.
  repeat split. intros photos w pub Hr Hne.
  rewrite click_startScan_starts; [done|done|done].
Qed.

End Facts.

Lemma no_second_scan_witness :
  let g := Capture.mkState
             (Scan.ui (Scan.state (Scan.runScan firstChunkMatches parse resize tenPhotos guest)))
             true [] [] [] in
  let l := [Guest.SelectSelfie (Some (mkFile "me.jpg" "jpeg", "blob:1")); Guest.DeselectPhoto "p0"] in
  Views.ScanEnded (Capture.ui g)
  ∧ Views.ScanEnded (Capture.ui (Guest.acts resize g l))
  ∧ Views.scanControl (Capture.ui (Guest.acts resize g l)) = Views.AnalysisComplete.
Proof.
  apply (no_second_scan firstChunkMatches parse resize tenPhotos guest); try discriminate.
  reflexivity.
Defined.

Lemma uploaded_selfie_is_the_reference_witness :
  referenceFrames (Views.handleSelfieSelect resize (Some (mkFile "me.jpg" "jpeg", "blob:1")) initialPortal)
    = [Some "jpeg:me.jpg"].
Proof.
  destruct (uploaded_selfie_is_the_reference resize (mkFile "me.jpg" "jpeg") "blob:1" "jpeg:me.jpg"
              initialPortal eq_refl) as [-> _].
  reflexivity.
Defined.

Lemma failed_upload_keeps_old_reference_witness :
  let p := Views.handleSelfieSelect resize (Some (mkFile "corrupt" "jpeg", "blob:2")) (Scan.ui guest) in
  referenceFrames p = [Some "front"] ∧ displaySelfie p = Some "blob:2".
Proof.
  destruct (failed_upload_keeps_old_reference resize (mkFile "corrupt" "jpeg") "blob:2" DecodeError
              (Scan.ui guest) eq_refl) as (-> & _).
  by split.
Defined.

End GuestFacts.

(** ** More on the camera *)

Module CameraFacts.
Import Capture CaptureFacts Fixtures Samples.

Lemma split_comma_commaFree s : Views.commaFree s = true → split_comma s = [s].
Proof.
  induction s as [|c s IH]; [done|]. simpl.
  destruct (Ascii.eqb c ","); [done|]. simpl. intros H. by rewrite (IH H).
Qed.

(** X14: the frame that [finishRecording] stores for the oracle is the
    second piece of the data URL cut at its commas: for a URL made of a
    header and a payload that hold no comma it is the payload, and for a
    string without any comma there is no second piece, so the stored
    reference is undefined. *)
Theorem data_url_payload (header payload : string) :
  Views.commaFree header = true → Views.commaFree payload = true →
  split_comma (header +:+ "," +:+ payload) = [header; payload]
  ∧ split_comma header !! 1%nat = None.
Proof.
  intros Hh Hp. split; [|by rewrite split_comma_commaFree].
  induction header as [|c h IH]; simpl.
  - by rewrite split_comma_commaFree.
  - simpl in Hh. destruct (Ascii.eqb c ","); [done|]. simpl in Hh. by rewrite (IH Hh).
Qed.

(** X15: [startCamera] empties the reference frames before it asks for
    the camera. When the camera is refused, the guest who had a selfie
    keeps it on display but has no reference left: the error is shown, no
    stream is opened, the modal is not opened, and a click on Find Matches
    does nothing. *)
Theorem refused_camera_discards_references (s : State) e :
  mounted s = true →
  let s' := step s (OpenCamera (Throw e)) in
  referenceFrames (ui s') = []
  ∧ displaySelfie (ui s') = displaySelfie (ui s)
  ∧ matchedPhotoIds (ui s') = matchedPhotoIds (ui s)
  ∧ error (ui s')
      = Some "Unable to access camera. Please allow permissions or use the upload option."
  ∧ showCamera (ui s') = showCamera (ui s)
  ∧ liveStreams s' = liveStreams s
  ∧ (∀ photos w pub,
       Scan.click_startScan photos (Scan.mkState (ui s') w pub)
         = Scan.mkClient (Scan.mkState (ui s') w pub) None).
Proof.
  intros Hm s'. subst s'. destruct s as [p m ls ts cs]. simpl in Hm. subst m.
  unfold step, startCamera, on_ui. simpl. repeat split.
Qed.

Lemma filter_fresh (stream : MediaStream) (ls : list MediaStream) :
  stream ∉ ls → filter (λ x, x ≠ stream) (ls ++ [stream]) = ls.
Proof.
  intros Hfresh. rewrite filter_app.
  rewrite (filter_cons_False _ stream) by (intros H; by apply H).
  rewrite filter_nil, app_nil_r.
  induction ls as [|x ls IH]; [done|].
  apply not_elem_of_cons in Hfresh as [Hne Hfresh].
  rewrite filter_cons_True by done. by rewrite IH.
Qed.

(** X16: opening the camera and closing it again with the close button
    gives back the streams as they were: the stream that was opened is
    stopped and no other is, the modal is closed, the state holds no
    stream, and the step is IDLE; the reference frames have been emptied
    by the opening and stay so. *)
Theorem open_then_close (s : State) (stream : MediaStream) :
  mounted s = true → stream ∉ liveStreams s →
  let s' := exec s [OpenCamera (Ok stream); CloseCamera] in
  liveStreams s' = liveStreams s
  ∧ showCamera (ui s') = false
  ∧ cameraStream (ui s') = None
  ∧ recordingStep (ui s') = IDLE
  ∧ referenceFrames (ui s') = []
  ∧ timers s' = timers s.
Proof.
  intros Hm Hfresh s'. subst s'. destruct s as [p m ls ts cs]. simpl in Hm. subst m.
  simpl in Hfresh. unfold exec. simpl.
  unfold stopCamera, stopTracks, on_ui. simpl.
  by rewrite filter_fresh.
Qed.

Lemma on_ui_Bar f s :
  (∀ p, Views.BarWithinRange p → Views.BarWithinRange (f p)) →
  Views.BarWithinRange (ui s) → Views.BarWithinRange (ui (on_ui f s)).
Proof. intros Hf Hs. unfold on_ui. destruct (mounted s); [by apply Hf|done]. Qed.

Lemma stopCamera_Bar seen s :
  Views.BarWithinRange (ui s) → Views.BarWithinRange (ui (stopCamera seen s)).
Proof.
  destruct s as [p m ls ts cs]. unfold stopCamera, stopTracks, on_ui.
  by destruct seen, m.
Qed.

Lemma finishRecording_Bar fs seen s :
  Views.BarWithinRange (ui s) → Views.BarWithinRange (ui (finishRecording fs seen s)).
Proof.
  intros Hs. unfold finishRecording. destruct (decide _).
  - destruct s as [p m ls ts cs]. unfold on_ui. by destruct m.
  - apply stopCamera_Bar. by apply on_ui_Bar.
Qed.

Lemma runStep_Bar st now fs seen s :
  Views.BarWithinRange (ui s) → Views.BarWithinRange (ui (runStep st now fs seen s)).
Proof.
  destruct s as [p m ls ts cs]. unfold runStep, on_ui. by destruct m.
Qed.

Lemma next_Bar st now fs seen s :
  Views.BarWithinRange (ui s) → Views.BarWithinRange (ui (next st now fs seen s)).
Proof.
  intros Hs. unfold next.
  destruct st; try (by apply runStep_Bar); by apply finishRecording_Bar, on_ui_Bar.
Qed.

Lemma step_Bar s ev :
  Views.BarWithinRange (ui s) → Views.BarWithinRange (ui (step s ev)).
Proof.
  intros Hs. destruct ev as [getUserMedia|now| |k now canvas|]; unfold step.
  - destruct (mounted s) eqn:Hm; [|done].
    destruct s as [p m ls ts cs]. simpl in Hm. subst m.
    unfold startCamera, on_ui. by destruct getUserMedia.
  - destruct (_ && _); [|done]. by apply runStep_Bar.
  - destruct (_ && _); [|done]. by apply stopCamera_Bar.
  - destruct (timers s !! k) as [[iv|seen]|]; [| |done].
    + unfold intervalCallback.
      assert (Views.BarWithinRange
                (ui (on_ui (set_stepProgress
                       (Qmin 100 (inject_Z (now - startTime iv) / inject_Z STEP_DURATION * 100)))
                       s))) as Hbar.
      { unfold on_ui. destruct (mounted s); [|done].
        unfold Views.BarWithinRange. simpl. apply Q.le_min_l. }
      revert Hbar. generalize (Qmin 100 (inject_Z (now - startTime iv) / inject_Z STEP_DURATION * 100)).
      intros prog Hbar. destruct (decide _); [|done]. by apply next_Bar.
    + by apply stopCamera_Bar.
  - destruct (mounted s); [|done]. unfold unmountCleanup. done.
Qed.

(** X17: the progress bar of a pose never stands beyond 100: whatever
    the clock reads when a timer fires, however late, and whatever else
    happens to the camera, the value that the interval callback stores is
    capped. *)
Theorem progress_bar_is_capped (s : State) (evs : list Event) :
  Views.BarWithinRange (ui s) → Views.BarWithinRange (ui (exec s evs)).
Proof.
  revert s. induction evs as [|ev evs' IH]; intros s Hs; [done|].
  unfold exec. simpl. apply IH. by apply step_Bar.
Qed.

Section Session.

Variable s : State.
Variable t0 : Z.
Variable canvas : nat → option string.
Hypothesis Hmounted : mounted s = true.
Hypothesis Hshown : showCamera (ui s) = true.
Hypothesis Hidle : recordingStep (ui s) = IDLE.
Hypothesis Htimers : timers s = [].



End Session.

Lemma data_url_payload_witness :
  split_comma "data:image/jpeg;base64,AAAA" = ["data:image/jpeg;base64"; "AAAA"]
  ∧ split_comma "data:image/jpeg;base64" !! 1%nat = None.
Proof. apply (data_url_payload "data:image/jpeg;base64" "AAAA"); reflexivity. Defined.

Lemma refused_camera_discards_references_witness :
  referenceFrames (ui (step cameraOpen (OpenCamera (Throw ServiceError)))) = [].
Proof.
  destruct (refused_camera_discards_references cameraOpen ServiceError eq_refl) as [H _].
  exact H.
Defined.

Lemma progress_bar_is_capped_witness :
  Views.BarWithinRange (ui (exec initial [OpenCamera (Ok 7%nat); StartSequence 0;
                                          Fire 0 9000 None; Fire 0 9050 None])).
Proof. apply (progress_bar_is_capped initial). by vm_compute. Defined.

Lemma open_then_close_witness :
  liveStreams (exec initial [OpenCamera (Ok 7%nat); CloseCamera]) = [].
Proof.
  destruct (open_then_close initial 7%nat eq_refl) as [H _]; [|exact H].
  apply not_elem_of_nil.
Defined.


End CameraFacts.

(** ** More on the indexing of the gallery *)

Module GalleryFacts.
Import Dashboard Gallery ResultFacts DashboardFacts Fixtures Samples.

Local Abbreviation pending := (filter (λ p : Photo, processed p = false)).

Lemma pending_uploads (files : list Upload) :
  pending ((λ f, mkPhoto (new_id f) (new_url f) (new_file f) (now f) None false) <$> files)
    = (λ f, mkPhoto (new_id f) (new_url f) (new_file f) (now f) None false) <$> files.
Proof.
  induction files as [|f files IH]; [done|]. csimpl.
  rewrite filter_cons_True by done. by rewrite IH.
Qed.


Lemma pending_le (l : list Photo) : (length (pending l) ≤ length l)%nat.
Proof. apply length_filter. Qed.

(** X19: dropping or selecting files appends one photo per file, in the
    order of the files, after the photos that are there, each unindexed
    and without a representation: the pending counter grows by the number
    of files and the indexed counter does not change; nothing in flight,
    queued or scheduled is touched. *)
Theorem upload_appends_pending (files : list Upload) (s : State) :
  let s' := processFiles files s in
  take (length (photos s)) (photos s') = photos s
  ∧ (λ p, (id p, url p, file p, timestamp p, optimizedBase64 p, processed p))
      <$> drop (length (photos s)) (photos s')
    = (λ f, (new_id f, new_url f, new_file f, now f, None, false)) <$> files
  ∧ pendingCount s' = (pendingCount s + length files)%nat
  ∧ processedCount s' = processedCount s
  ∧ inFlight s' = inFlight s ∧ processingQueue s' = processingQueue s
  ∧ processingRef s' = processingRef s ∧ timers s' = timers s.
Proof.
  intros s'. subst s'. unfold processFiles, processedCount, pendingCount. simpl.
  rewrite take_app_length, drop_app_length, filter_app, pending_uploads.
  rewrite !length_app, !length_fmap.
  pose proof (pending_le (photos s)).
  repeat split; try lia.
  rewrite <- list_fmap_compose. by apply list_fmap_ext.
Qed.

Section Facts.

Variable resizeImage : File → Z → Result string.

Local Abbreviation processNextBatch := (Dashboard.processNextBatch).
Local Abbreviation indexPhoto := (Dashboard.indexPhoto resizeImage).
Local Abbreviation settle := (Dashboard.settle resizeImage).
Local Abbreviation step := (Dashboard.step resizeImage).
Local Abbreviation exec := (Dashboard.exec resizeImage).

Lemma exec_app s evs1 evs2 : exec s (evs1 ++ evs2) = exec (exec s evs1) evs2.
Proof. unfold Dashboard.exec. apply foldl_app. Qed.

Lemma slice_nonempty {A} (l : list A) : l ≠ [] → slice l 0 3 ≠ [].
Proof. by destruct l. Qed.

Lemma processNextBatch_cases seen s :
  processNextBatch seen s = s
  ∨ (processingRef s = false ∧ pending seen ≠ []
     ∧ processNextBatch seen s
       = mkState (photos s) (id <$> slice (pending seen) 0 3) true
           (inFlight s ++ [mkBatch (slice (pending seen) 0 3) seen]) (timers s) (console s)).
Proof.
  unfold Dashboard.processNextBatch.
  destruct (processingRef s) eqn:Href; [by left|].
  destruct (decide _) as [H0|Hne]; [by left|].
  right. repeat split. intros Hnil. by rewrite Hnil in Hne.
Qed.

Lemma BatchShaped_processNextBatch seen s s0 :
  BatchShaped s → inFlight s0 = inFlight s → processingRef s0 = processingRef s →
  processingQueue s0 = processingQueue s →
  BatchShaped (processNextBatch seen s0).
Proof.
  intros Hs Hin Href Hq.
  destruct (processNextBatch_cases seen s0) as [->|(Hfree & Hne & ->)].
  - unfold BatchShaped. by rewrite Hin, Href, Hq.
  - unfold BatchShaped in *. simpl. rewrite Hin.
    destruct (inFlight s) as [|b [|b' rest]]; simpl.
    + repeat split. by apply slice_nonempty.
    + destruct Hs as [Hs _]. congruence.
    + done.
Qed.

Lemma BatchShaped_step s ev : BatchShaped s → BatchShaped (step s ev).
Proof.
  intros Hs. destruct ev; simpl.
  - exact Hs.
  - exact Hs.
  - by apply (BatchShaped_processNextBatch _ s).
  - destruct (timers s) as [|seen rest]; [done|].
    by apply (BatchShaped_processNextBatch _ s).
  - unfold BatchShaped in Hs.
    destruct (inFlight s) as [|b [|b' rest]] eqn:Hin; [by unfold BatchShaped; rewrite Hin| |done].
    unfold Dashboard.settle, BatchShaped.
    by destruct (Promise_all _), (existsb _ _).
Qed.

Lemma BatchShaped_exec s evs : BatchShaped s → BatchShaped (exec s evs).
Proof.
  revert s. induction evs as [|ev evs IH]; intros s Hs; [done|].
  simpl. by apply IH, BatchShaped_step.
Qed.

Lemma marks_refl p : marks p p.
Proof. by split. Qed.

Lemma marks_trans p q r : marks p q → marks q r → marks p r.
Proof. intros [H1 H2] [H3 H4]. split; [congruence|auto]. Qed.

Lemma marks_all_refl (l : list Photo) : Forall2 marks l l.
Proof. induction l; constructor; [apply marks_refl|done]. Qed.

Lemma marks_all_trans (l1 l2 l3 : list Photo) :
  Forall2 marks l1 l2 → Forall2 marks l2 l3 → Forall2 marks l1 l3.
Proof.
  intros H. revert l3. induction H as [|p q l1 l2 Hpq _ IH]; intros l3 H23.
  - by inversion H23.
  - inversion H23; subst. constructor; [by eapply marks_trans|by apply IH].
Qed.

Lemma applyUpdates_marks updates prev : Forall2 marks prev (applyUpdates updates prev).
Proof.
  unfold applyUpdates. induction prev as [|p prev IH]; csimpl; constructor; [|done].
  destruct (List.find _ updates); [by split|apply marks_refl].
Qed.

Lemma processNextBatch_photos seen s : photos (processNextBatch seen s) = photos s.
Proof. by destruct (processNextBatch_cases seen s) as [->|(_ & _ & ->)]. Qed.

Lemma step_marks s ev : indexing ev → Forall2 marks (photos s) (photos (step s ev)).
Proof.
  intros Hev. destruct ev; simpl in *; try done.
  - rewrite processNextBatch_photos. apply marks_all_refl.
  - destruct (timers s); [apply marks_all_refl|].
    rewrite processNextBatch_photos. apply marks_all_refl.
  - destruct (inFlight s) as [|b rest]; [apply marks_all_refl|].
    unfold Dashboard.settle.
    destruct (Promise_all _), (existsb _ _); simpl;
      try apply applyUpdates_marks; apply marks_all_refl.
Qed.

Lemma marks_pending (l1 l2 : list Photo) :
  Forall2 marks l1 l2 → (length (pending l2) ≤ length (pending l1))%nat.
Proof.
  induction 1 as [|p q l1 l2 [_ Hpq] _ IH]; [done|].
  destruct (processed p) eqn:Hp.
  - rewrite (filter_cons_False _ p) by (by rewrite Hp).
    rewrite (filter_cons_False _ q) by (by rewrite Hpq). done.
  - rewrite (filter_cons_True _ p) by done.
    destruct (processed q) eqn:Hq.
    + rewrite (filter_cons_False _ q) by (by rewrite Hq). simpl. lia.
    + rewrite (filter_cons_True _ q) by done. simpl. lia.
Qed.

(** X21: the background processor never adds, removes, reorders or
    unmarks a photo: across any run of its own events (the effect, the
    retry timer, the settling of a batch) the gallery holds the same
    photos at the same positions, with their id, URL, file and timestamp,
    and a photo that was marked as indexed stays marked; so the pending
    counter does not grow, and a gallery that was cleared stays empty even
    when a batch of the photos it held settles afterwards. *)
Theorem indexing_only_marks (s : State) (evs : list Event) :
  Forall indexing evs →
  Forall2 marks (photos s) (photos (exec s evs))
  ∧ identity <$> photos (exec s evs) = identity <$> photos s
  ∧ (pendingCount (exec s evs) ≤ pendingCount s)%nat
  ∧ photos (exec (clearGallery s) evs) = [].
Proof.
  intros Hevs.
  assert (∀ s, Forall2 marks (photos s) (photos (exec s evs))) as Hmarks.
  { clear s. induction Hevs as [|ev evs Hev _ IH]; intros s; [apply marks_all_refl|].
    simpl. eapply marks_all_trans; [by apply step_marks|apply IH]. }
  split; [apply Hmarks|]. split; [|split].
  - specialize (Hmarks s). induction Hmarks as [|p q l1 l2 [Hpq _] _ IH]; csimpl; [done|].
    by rewrite Hpq, IH.
  - apply marks_pending, Hmarks.
  - specialize (Hmarks (clearGallery s)). simpl in Hmarks. by inversion Hmarks.
Qed.

(** X22: the retry that [finally] schedules calls the closure of the
    render in which the batch was started, so it reads the photos of that
    render: a batch that settles always schedules a retry, and when the
    retry fires with no other invocation suspended, it submits the very
    same batch again, whether the batch had failed or had been indexed,
    and whatever the gallery holds by then. Left to these two events the
    processor never comes to rest. *)
Theorem retry_resubmits_same_batch (s : State) (b : Batch) (n : nat) :
  BatchShaped s → inFlight s = [b] → timers s = [] →
  let s' := exec s (concat (replicate n [Settle; Timer])) in
  inFlight s' = [b] ∧ timers s' = [] ∧ BatchShaped s'
  ∧ timers (step s' Settle) = [seen_photos b]
  ∧ inFlight (step s' Settle) = [].
Proof.
  intros Hs Hin Ht.
  assert (∀ s, BatchShaped s → inFlight s = [b] → timers s = [] →
               timers (step s Settle) = [seen_photos b]
               ∧ inFlight (step s Settle) = []
               ∧ processingRef (step s Settle) = false) as Hsettle.
  { clear. intros s Hs Hin Ht. unfold BatchShaped in Hs. rewrite Hin in Hs.
    destruct Hs as (_ & Hbatch & Hne & _).
    simpl. rewrite Hin. unfold Dashboard.settle.
    assert (existsb (λ p, negb (processed p)) (seen_photos b) = true) as ->.
    { destruct (batch b) as [|p ps] eqn:Hb; [done|].
      apply existsb_exists. exists p.
      assert (p ∈ pending (seen_photos b)) as [Hp Hp']%list_elem_of_filter.
      { unfold slice in Hbatch. simpl in Hbatch. rewrite drop_0 in Hbatch. apply (subseteq_take 3).
        rewrite <- Hbatch. by left. }
      split; [by apply list_elem_of_In|by rewrite Hp]. }
    destruct (Promise_all _); simpl; by rewrite Ht. }
  assert (∀ s, BatchShaped s → inFlight s = [b] → timers s = [] →
               inFlight (exec s [Settle; Timer]) = [b]
               ∧ timers (exec s [Settle; Timer]) = []) as Hround.
  { intros s0 Hs0 Hin0 Ht0.
    destruct (Hsettle s0 Hs0 Hin0 Ht0) as (Ht1 & Hin1 & Href1).
    pose proof Hs0 as Hshape. unfold BatchShaped in Hshape. rewrite Hin0 in Hshape.
    destruct Hshape as (_ & Hbatch & Hne & _).
    change (exec s0 [Settle; Timer]) with (step (step s0 Settle) Timer).
    remember (step s0 Settle) as s1 eqn:Hs1. simpl. rewrite Ht1.
    match goal with |- context [processNextBatch ?seen ?st] =>
      destruct (processNextBatch_cases seen st) as [Hsame|(_ & _ & ->)] end.
    - exfalso. revert Hsame. unfold Dashboard.processNextBatch. simpl. rewrite Href1.
      rewrite decide_False.
      2:{ rewrite Hbatch in Hne. destruct (pending (seen_photos b)); [done|simpl; lia]. }
      intros Heq. apply (f_equal processingRef) in Heq. simpl in Heq. congruence.
    - simpl. rewrite Hin1, <- Hbatch. by destruct b. }
  intros s'. subst s'.
  assert (inFlight (exec s (concat (replicate n [Settle; Timer]))) = [b]
          ∧ timers (exec s (concat (replicate n [Settle; Timer]))) = []
          ∧ BatchShaped (exec s (concat (replicate n [Settle; Timer])))) as (Hin' & Ht' & Hs').
  { induction n as [|n IH]; [done|].
    replace (S n) with (n + 1)%nat by lia.
    rewrite replicate_add, concat_app, exec_app. simpl concat.
    destruct IH as (Hin' & Ht' & Hs').
    destruct (Hround _ Hs' Hin' Ht') as [? ?].
    repeat split; try done. by apply BatchShaped_exec. }
  destruct (Hsettle _ Hs' Hin' Ht') as (? & ? & _).
  by repeat split.
Qed.






Lemma find_none (updates : list (string * string)) x :
  x ∉ fst <$> updates → List.find (λ u, String.eqb (fst u) x) updates = None.
Proof.
  induction updates as [|u updates IH]; csimpl; [done|].
  intros [Hne Hx]%not_elem_of_cons.
  destruct (String.eqb_spec (fst u) x); [done|by apply IH].
Qed.

Lemma find_first ps us p :
  Forall2 (λ p u, indexPhoto p = Ok u) ps us → NoDup (id <$> ps) → p ∈ ps →
  ∃ r, resizeImage (file p) 600 = Ok r
       ∧ List.find (λ u, String.eqb (fst u) (id p)) us = Some (id p, r).
Proof.
  induction 1 as [|p0 u ps us Hp0 _ IH]; csimpl; [by intros _ ?%not_elem_of_nil|].
  intros [Hfresh Hnd]%NoDup_cons [->|Hp]%elem_of_cons.
  - unfold Dashboard.indexPhoto in Hp0. destruct (resizeImage _ _) as [r|]; [|done].
    injection Hp0 as <-. exists r. simpl. by rewrite String.eqb_refl.
  - destruct (IH Hnd Hp) as (r & Hr & Hfind). exists r. split; [done|].
    unfold Dashboard.indexPhoto in Hp0. destruct (resizeImage (file p0) 600); [|done].
    injection Hp0 as <-. simpl.
    destruct (String.eqb_spec (id p0) (id p)) as [Heq|_]; [|done].
    exfalso. apply Hfresh. rewrite Heq. apply list_elem_of_fmap. by exists p.
Qed.

(** X24: what a batch that settles well writes. Updates are matched to the
    photos of the gallery by id: a photo whose id is not in the batch is
    left as it is; a photo whose id is that of a batch member is marked as
    indexed and gets the normalization of the file of that member, its
    own fields apart from the representation and the mark being kept.
    Nothing is logged. This is for a batch whose members have distinct
    ids, as the ids that [generateId] hands out are meant to be. *)
Theorem settle_marks_exactly (b : Batch) (s : State) updates k q :
  Promise_all (indexPhoto <$> batch b) = Ok updates →
  NoDup (id <$> batch b) →
  photos s !! k = Some q →
  length (photos (settle b s)) = length (photos s)
  ∧ console (settle b s) = console s
  ∧ (id q ∉ id <$> batch b → photos (settle b s) !! k = Some q)
  ∧ (∀ p, p ∈ batch b → id p = id q →
       ∃ r, resizeImage (file p) 600 = Ok r
            ∧ photos (settle b s) !! k
                = Some (mkPhoto (id q) (url q) (file q) (timestamp q) (Some r) true)).
Proof.
  intros Hall Hnd Hk.
  destruct (settle_indexed resizeImage b s updates Hall) as (-> & -> & _).
  unfold applyUpdates. rewrite length_fmap, list_lookup_fmap, Hk. simpl.
  repeat split.
  - intros Hid. rewrite find_none; [done|].
    by rewrite (indexPhoto_ids resizeImage _ _ Hall).
  - intros p Hp Hpq.
    destruct (find_first _ _ p (sequence_Ok_Forall2 _ _ _ Hall) Hnd Hp) as (r & Hr & Hfind).
    exists r. split; [done|]. by rewrite <- Hpq, Hfind.
Qed.

End Facts.

Lemma indexing_only_marks_witness :
  (pendingCount (Dashboard.exec resize (mount fourFresh) [Effect; Settle; Effect; Settle])
     ≤ pendingCount (mount fourFresh))%nat.
Proof.
  destruct (indexing_only_marks resize (mount fourFresh) [Effect; Settle; Effect; Settle])
    as (_ & _ & H & _); [by repeat constructor|exact H].
Defined.

Lemma retry_resubmits_same_batch_witness :
  let s := Dashboard.exec resize (mount fourFresh) [Effect] in
  inFlight (Dashboard.exec resize s [Settle; Timer; Settle; Timer])
    = [mkBatch (take 3 fourFresh) fourFresh].
Proof.
  destruct (retry_resubmits_same_batch resize
              (Dashboard.exec resize (mount fourFresh) [Effect])
              (mkBatch (take 3 fourFresh) fourFresh) 2) as [H _]; try exact H.
  - by vm_compute.
  - reflexivity.
  - reflexivity.
Defined.


Lemma settle_marks_exactly_witness :
  let b := mkBatch (take 3 fourFresh) fourFresh in
  photos (Dashboard.settle resize b (mount fourFresh)) !! 3%nat = Some (fresh "d").
Proof.
  destruct (settle_marks_exactly resize (mkBatch (take 3 fourFresh) fourFresh)
              (mount fourFresh) [("a", "jpeg:a"); ("b", "jpeg:b"); ("c", "jpeg:c")]
              3%nat (fresh "d")) as (_ & _ & H & _).
  - reflexivity.
  - by vm_compute; repeat constructor; rewrite ?elem_of_cons, ?elem_of_nil; intuition discriminate.
  - reflexivity.
  - apply H. simpl. rewrite !elem_of_cons, elem_of_nil. intuition discriminate.
Defined.

End GalleryFacts.

(** ** The dashboard left and entered again *)

Module AppFacts.
Import ResultFacts DashboardFacts GalleryFacts Fixtures Samples.

Local Abbreviation pending := (filter (λ p : Photo, processed p = false)).

Lemma InstanceShaped_hidden shown i :
  App.InstanceShaped shown i → App.InstanceShaped false i.
Proof.
  unfold App.InstanceShaped. destruct (App.inFlight i) as [|b [|b' rest]]; [done| |done].
  intros (? & ? & ? & _). by repeat split.
Qed.

Lemma mounted_setMode_old newMode s k :
  (k < length (App.dashboards s))%nat →
  App.mounted (App.setMode newMode s) k = true → App.mounted s k = true.
Proof.
  intros Hk. unfold App.setMode, App.mounted.
  destruct newMode, (App.mode s) eqn:Hmode; simpl; rewrite ?Hmode; try done.
  all: intros H%bool_decide_eq_true; rewrite length_app in H; simpl in H; lia.
Qed.

Section Facts.

Variable resizeImage : File → Z → Result string.

Local Abbreviation step := (App.step resizeImage).
Local Abbreviation exec := (App.exec resizeImage).

Lemma exec_snoc s evs ev : exec s (evs ++ [ev]) = step (exec s evs) ev.
Proof. unfold App.exec. by rewrite foldl_app. Qed.

(** One step of an instance, seen from the instance. *)
Lemma InstanceShaped_step s shown i dev :
  App.InstanceShaped shown i →
  let d := Dashboard.step resizeImage (App.view s i) dev in
  App.InstanceShaped shown
    (App.mkInstance
       (if shown then Dashboard.processingQueue d else App.processingQueue i)
       (Dashboard.processingRef d) (Dashboard.inFlight d) (Dashboard.timers d)).
Proof.
  intros Hi d. subst d. unfold App.InstanceShaped in *.
  assert (∀ seen ts,
    match Dashboard.inFlight
            (Dashboard.processNextBatch seen
               (Dashboard.mkState (App.eventPhotos s) (App.processingQueue i)
                  (App.processingRef i) (App.inFlight i) ts (App.console s))) with
    | [] => Dashboard.processingRef
              (Dashboard.processNextBatch seen
                 (Dashboard.mkState (App.eventPhotos s) (App.processingQueue i)
                    (App.processingRef i) (App.inFlight i) ts (App.console s))) = false
    | [b] =>
        Dashboard.processingRef
          (Dashboard.processNextBatch seen
             (Dashboard.mkState (App.eventPhotos s) (App.processingQueue i)
                (App.processingRef i) (App.inFlight i) ts (App.console s))) = true
        ∧ Dashboard.batch b = slice (pending (Dashboard.seen_photos b)) 0 3
        ∧ Dashboard.batch b ≠ []
        ∧ (shown = true →
           (if shown
            then Dashboard.processingQueue
                   (Dashboard.processNextBatch seen
                      (Dashboard.mkState (App.eventPhotos s) (App.processingQueue i)
                         (App.processingRef i) (App.inFlight i) ts (App.console s)))
            else App.processingQueue i) = id <$> Dashboard.batch b)
    | _ => False
    end) as Hnext.
  { intros seen ts.
    match goal with |- context [Dashboard.processNextBatch seen ?d0] =>
      destruct (processNextBatch_cases seen d0) as [->|(Hfree & Hne & ->)] end; simpl.
    - destruct (App.inFlight i) as [|b [|b' rest]]; [done| |done].
      destruct Hi as (? & ? & ? & Hq). repeat split; try done.
      intros ->. by apply Hq.
    - simpl in Hfree. destruct (App.inFlight i) as [|b [|b' rest]]; simpl.
      + repeat split; [by apply slice_nonempty|]. by intros ->.
      + destruct Hi as [Hi _]. congruence.
      + done. }
  destruct dev as [files| | | |]; simpl.
  - destruct (App.inFlight i) as [|b [|b' rest]]; [done| |done].
    destruct Hi as (? & ? & ? & Hq). repeat split; try done. intros ->. by apply Hq.
  - destruct (App.inFlight i) as [|b [|b' rest]]; [done| |done].
    destruct Hi as (? & ? & ? & Hq). repeat split; try done. intros ->. by apply Hq.
  - apply Hnext.
  - destruct (App.timers i) as [|seen rest]; simpl; [|apply Hnext].
    destruct (App.inFlight i) as [|b [|b' rest]]; [done| |done].
    destruct Hi as (? & ? & ? & Hq). repeat split; try done. intros ->. by apply Hq.
  - destruct (App.inFlight i) as [|b [|b' rest]] eqn:Hin; simpl; [by rewrite Hin| |done].
    unfold Dashboard.settle.
    by destruct (Promise_all _), (existsb _ _).
Qed.

Lemma Shaped_step s ev : App.Shaped s → App.Shaped (step s ev).
Proof.
  intros Hs. destruct ev as [newMode|k dev]; simpl.
  - intros k i Hk.
    destruct (decide (k < length (App.dashboards s))%nat) as [Hold|Hnew].
    + assert (App.dashboards s !! k = Some i) as Hk'.
      { revert Hk. unfold App.setMode.
        destruct newMode, (App.mode s); simpl; try done.
        all: by rewrite lookup_app_l. }
      specialize (Hs k i Hk').
      destruct (App.mounted (App.setMode newMode s) k) eqn:Hm.
      * by rewrite (mounted_setMode_old newMode s k Hold Hm) in Hs.
      * by apply (InstanceShaped_hidden (App.mounted s k)).
    + assert (i = App.freshInstance) as ->; [|by destruct (App.mounted _ _)].
      revert Hk. unfold App.setMode.
      destruct newMode, (App.mode s); simpl;
        try (intros Hk; apply lookup_lt_Some in Hk; lia).
      all: rewrite lookup_app_r by lia.
      all: destruct (k - length (App.dashboards s))%nat; simpl; [by intros [= <-]|done].
  - destruct (App.dashboards s !! k) as [i|] eqn:Hk; [|done].
    destruct (App.reaches s k dev); [|done].
    intros k' i' Hk'. unfold App.store in Hk'. simpl in Hk'.
    assert (App.mounted (App.store s k i (Dashboard.step resizeImage (App.view s i) dev)) k'
            = App.mounted s k') as ->.
    { unfold App.mounted, App.store. simpl. by rewrite length_insert. }
    destruct (decide (k' = k)) as [->|Hne].
    + rewrite list_lookup_insert_eq in Hk' by (by apply lookup_lt_Some in Hk).
      injection Hk' as <-. apply InstanceShaped_step. by apply Hs.
    + rewrite list_lookup_insert_ne in Hk' by done. by apply Hs.
Qed.

Lemma Shaped_exec evs : App.Shaped (exec App.initial evs).
Proof.
  induction evs as [|ev evs IH] using rev_ind.
  - intros k i Hk. done.
  - rewrite exec_snoc. by apply Shaped_step.
Qed.

(** X20: every suspended invocation of the background processor, of
    whichever instance of the dashboard, is the only one of its instance,
    and its batch is the first three photos that were pending in the
    render it closed over, or all of them when they were fewer: one to
    three photos, all unindexed there, in gallery order; and while the
    instance is in the tree, the queue it shows is the ids of exactly that
    batch. *)
Theorem suspended_batch_is_first_pending (evs : list App.Event) :
  let s := exec App.initial evs in
  ∀ k i b, App.dashboards s !! k = Some i → b ∈ App.inFlight i →
    App.inFlight i = [b]
    ∧ Dashboard.batch b = take 3 (pending (Dashboard.seen_photos b))
    ∧ (1 ≤ length (Dashboard.batch b) ≤ 3)%nat
    ∧ Forall (λ p, processed p = false) (Dashboard.batch b)
    ∧ sublist (Dashboard.batch b) (Dashboard.seen_photos b)
    ∧ (App.mounted s k = true → App.processingQueue i = id <$> Dashboard.batch b).
Proof.
  intros s k i b Hk Hb.
  pose proof (Shaped_exec evs k i Hk) as Hi. fold s in Hi.
  unfold App.InstanceShaped in Hi.
  destruct (App.inFlight i) as [|b0 [|b' rest]]; [by apply not_elem_of_nil in Hb| |done].
  apply list_elem_of_singleton in Hb as ->.
  destruct Hi as (_ & Hbatch & Hne & Hq). unfold slice in Hbatch. simpl in Hbatch.
  rewrite drop_0 in Hbatch.
  repeat split; try done.
  - destruct (Dashboard.batch b0); [done|simpl; lia].
  - rewrite Hbatch, length_take. lia.
  - rewrite Hbatch. apply Forall_take, Forall_forall.
    by intros p [Hp _]%list_elem_of_filter.
  - rewrite Hbatch. etrans; [apply sublist_take|apply sublist_filter].
Qed.

End Facts.

(** C8, on the code. The guard is a ref of the instance, and it does its
    work there: no instance ever has two invocations suspended. But the
    photos belong to the app, and an instance that is left keeps its
    suspended invocation: when the photographer leaves the dashboard
    during a batch and comes back, the effect of the new instance finds
    its own ref down and the same photos pending, and starts a second
    batch of the very same photos while the first is still in flight. And
    the processor does not finish: the retry of a settled batch reads the
    photos of the render that started it, so after one photo has been
    indexed, with nothing pending, it is put in flight again. *)
Theorem reentry_starts_second_batch :
  (∀ resizeImage evs k i,
     App.dashboards (App.exec resizeImage App.initial evs) !! k = Some i →
     (length (App.inFlight i) ≤ 1)%nat)
  ∧ (let s := App.exec resize App.initial reentry in
     let b := Dashboard.mkBatch (take 3 fourUploaded) fourUploaded in
     App.mode s = App.PHOTOGRAPHER
     ∧ App.eventPhotos s = fourUploaded
     ∧ App.inFlight <$> App.dashboards s = [[b]; [b]]
     ∧ App.processingRef <$> App.dashboards s = [true; true]
     ∧ App.suspended s = 2%nat)
  ∧ (let s := App.exec resize App.initial
                [App.SetMode App.PHOTOGRAPHER;
                 App.OfDashboard 0 (Dashboard.Drop (take 1 fourUploads));
                 App.OfDashboard 0 Dashboard.Effect;
                 App.OfDashboard 0 Dashboard.Settle;
                 App.OfDashboard 0 Dashboard.Effect;
                 App.OfDashboard 0 Dashboard.Timer] in
     (λ p, (id p, processed p)) <$> App.eventPhotos s = [("a", true)]
     ∧ App.processingQueue <$> App.dashboards s = [["a"]]
     ∧ App.suspended s = 1%nat).
Proof.
  split; [|split; by vm_compute].
  intros resizeImage evs k i Hk. pose proof (Shaped_exec resizeImage evs k i Hk) as Hi.
  unfold App.InstanceShaped in Hi.
  destruct (App.inFlight i) as [|b [|b' rest]]; simpl; [lia|lia|done].
Qed.

Lemma suspended_batch_is_first_pending_witness :
  let s := App.exec resize App.initial reentry in
  let b := Dashboard.mkBatch (take 3 fourUploaded) fourUploaded in
  App.dashboards s !! 1%nat = Some (App.mkInstance ["a"; "b"; "c"] true [b] [])
  ∧ App.inFlight (App.mkInstance ["a"; "b"; "c"] true [b] []) = [b]
  ∧ (1 ≤ length (Dashboard.batch b) ≤ 3)%nat.
Proof.
  split; [by vm_compute|].
  destruct (suspended_batch_is_first_pending resize reentry 1%nat
              (App.mkInstance ["a"; "b"; "c"] true
                 [Dashboard.mkBatch (take 3 fourUploaded) fourUploaded] [])
              (Dashboard.mkBatch (take 3 fourUploaded) fourUploaded))
    as (H1 & _ & H2 & _).
  - by vm_compute.
  - by apply list_elem_of_singleton.
  - split; [exact H1|exact H2].
Defined.

End AppFacts.
